(** * The command center of the console: chord matching, dispute ranking
      and the per-registrant stores

    A shallow embedding of [src/lib/commandCenter/commands.ts].

    - [JS] holds the few JavaScript primitives the file relies on
      (string search, [join], number printing, [Math.max], insertion-ordered
      [Map]).
    - [Commands] holds the data model and the pure helpers
      ([getCommandRank], [hasDisputing], [getHighestPriorityCommand]).
    - [Matcher] is the closure returned by [commandCenterKeyDownHandler]:
      its two mutable arrays, its two debounced timers and the keydown
      handler itself, written with explicit state passing.
    - [Stores] is the reactive layer: [commandMap], [disabledMap] and the
      values derived from them. *)

From Stdlib Require Import List String Ascii Arith Bool Lia DecimalString.
Import ListNotations.

Local Open Scope list_scope.

(* ================================================================== *)
(** ** JavaScript primitives *)
(* ================================================================== *)

Module JS.

(** [String.prototype.startsWith], used to define [includes]. *)
Fixpoint startsWith (s sub : string) {struct sub} : bool :=
  match sub, s with
  | EmptyString, _ => true
  | String _ _, EmptyString => false
  | String b sub', String a s' => Ascii.eqb a b && startsWith s' sub'
  end.

(** [String.prototype.includes]: [sub] occurs in [s] at some offset. *)
Fixpoint includes (s sub : string) : bool :=
  startsWith s sub ||
  match s with
  | EmptyString => false
  | String _ s' => includes s' sub
  end.

(** [sub] is a contiguous substring of [s]. *)
Definition substring_of (sub s : string) : Prop :=
  exists pre post : string, s = (pre ++ sub ++ post)%string.

(** [String.prototype.toUpperCase] on one code unit.  Key labels are taken
    over the ASCII alphabet, where only [a]..[z] have an upper case. *)
Definition upper_ascii (a : ascii) : ascii :=
  let n := nat_of_ascii a in
  if (97 <=? n) && (n <=? 122) then ascii_of_nat (n - 32) else a.

Fixpoint toUpperCase (s : string) : string :=
  match s with
  | EmptyString => EmptyString
  | String a s' => String (upper_ascii a) (toUpperCase s')
  end.

(** [s.charCodeAt(0)]: the first code unit, or [NaN] ([None]) when [s] is
    empty. *)
Definition charCodeAt0 (s : string) : option nat :=
  match s with
  | EmptyString => None
  | String a _ => Some (nat_of_ascii a)
  end.

(** [String(n)] for a non-negative integer. *)
Definition number_toString (n : nat) : string :=
  NilEmpty.string_of_uint (Nat.to_uint n).

(** [String(x)] for the result of [charCodeAt]. *)
Definition code_toString (x : option nat) : string :=
  match x with
  | Some n => number_toString n
  | None => "NaN"%string
  end.

(** [Array.prototype.join] on an array of strings. *)
Definition join (sep : string) (l : list string) : string :=
  String.concat sep l.

(** The numbers [Math.max] ranges over here: naturals and [-Infinity],
    which is what [Math.max()] returns when given no argument. *)
Inductive num : Type :=
  | NegInfinity
  | Num (n : nat).

Definition num_max (a b : num) : num :=
  match a, b with
  | NegInfinity, _ => b
  | _, NegInfinity => a
  | Num x, Num y => Num (Nat.max x y)
  end.

(** [Math.max(...l)]. *)
Definition Math_max (l : list nat) : num :=
  fold_left (fun acc n => num_max acc (Num n)) l NegInfinity.

(** [x === m] for a natural [x] and a result of [Math.max]. *)
Definition num_eqb (x : nat) (m : num) : bool :=
  match m with
  | NegInfinity => false
  | Num y => x =? y
  end.

(** A JavaScript [Map] with string keys: the entries in insertion order,
    every key at most once. *)
Definition Map (V : Type) : Type := list (string * V).

Definition Map_empty {V : Type} : Map V := [].

Fixpoint Map_get {V : Type} (m : Map V) (k : string) : option V :=
  match m with
  | [] => None
  | (k', v) :: m' => if String.eqb k' k then Some v else Map_get m' k
  end.

Definition Map_has {V : Type} (m : Map V) (k : string) : bool :=
  match Map_get m k with Some _ => true | None => false end.

(** [m.set(k, v)]: an existing key keeps its position, a new key goes
    last. *)
Fixpoint Map_set {V : Type} (k : string) (v : V) (m : Map V) : Map V :=
  match m with
  | [] => [(k, v)]
  | (k', v') :: m' =>
      if String.eqb k' k then (k', v) :: m' else (k', v') :: Map_set k v m'
  end.

(** [m.delete(k)]; a no-op when [k] is absent. *)
Definition Map_delete {V : Type} (k : string) (m : Map V) : Map V :=
  filter (fun e => negb (String.eqb (fst e) k)) m.

(** [Array.from(m.values())]. *)
Definition Map_values {V : Type} (m : Map V) : list V := map snd m.

(** Optional boolean properties: absent, [false] or [true]; only [true]
    is truthy. *)
Definition truthy (o : option bool) : bool :=
  match o with
  | Some true => true
  | _ => false
  end.

End JS.

(* ================================================================== *)
(** ** Data model and pure helpers *)
(* ================================================================== *)

Module Commands.
Import JS.

Inductive CommandGroup : Type :=
  | ungrouped | navigation | projects | organizations | auth | help
  | account | platforms | databases | functions | storage.

(** [BaseCommand].  [oid] stands for the identity of the JavaScript object
    ([===] compares it); [callback] names the function stored in the
    object. *)
Record BaseCommand : Type := mkBase {
  oid : nat;
  callback : nat;
  label : option string;
  disabled : option bool;
  forceEnable : option bool;
  group : option CommandGroup;
  icon : option string
}.

(** [KeyedCommand = BaseCommand & { keys; ctrl?; shift?; alt? }]. *)
Record KeyedCommand : Type := mkKeyed {
  base :> BaseCommand;
  keys : list string;
  ctrl : option bool;
  shift : option bool;
  alt : option bool
}.

(** [Command = KeyedCommand | BaseCommand]. *)
Inductive Command : Type :=
  | Plain (b : BaseCommand)
  | Keyed (k : KeyedCommand).

(** [isKeyedCommand]: ['keys' in command], with the narrowing it gives. *)
Definition isKeyedCommand (c : Command) : option KeyedCommand :=
  match c with
  | Keyed k => Some k
  | Plain _ => None
  end.

(** The chorded members of a command list, in order. *)
Fixpoint keyed_only (l : list Command) : list KeyedCommand :=
  match l with
  | [] => []
  | c :: l' =>
      match isKeyedCommand c with
      | Some k => k :: keyed_only l'
      | None => keyed_only l'
      end
  end.

Definition command_oid (c : Command) : nat :=
  match c with
  | Plain b => oid b
  | Keyed k => oid k
  end.

(** [[meta, shift, alt].filter(Boolean).length]. *)
Definition modifiers (c : KeyedCommand) : nat :=
  List.length (filter truthy [ctrl c; shift c; alt c]).

Definition getCommandRank (c : KeyedCommand) : nat :=
  List.length (keys c) + modifiers c * 10.

Definition hasDisputing (command : KeyedCommand) (allCommands : list Command)
  : bool :=
  existsb
    (fun otherCommand =>
       if oid command =? command_oid otherCommand then false
       else
         match isKeyedCommand otherCommand with
         | None => false
         | Some other =>
             let keysString := join "+" (keys command) in
             let otherKeysString := join "+" (keys other) in
             let cmdRank := getCommandRank command in
             let otherCmdRank := getCommandRank other in
             (includes keysString otherKeysString
              || includes otherKeysString keysString)
             && (cmdRank <=? otherCmdRank)
         end)
    allCommands.

(** [getHighestPriorityCommand], with the array it closes over as an
    argument; [None] is [undefined]. *)
Definition getHighestPriorityCommand (validCommands : list KeyedCommand)
  : option KeyedCommand :=
  match validCommands with
  | [] => None
  | [c] => Some c
  | _ =>
      let rankedCommands :=
        map (fun command => (command, getCommandRank command)) validCommands in
      let highestScore := Math_max (map snd rankedCommands) in
      let highestScoreCommands :=
        filter (fun r => num_eqb (snd r) highestScore) rankedCommands in
      match highestScoreCommands with
      | [r] => Some (fst r)
      | _ =>
          let mostModifiers :=
            Math_max (map (fun r => modifiers (fst r)) highestScoreCommands) in
          let mostModifiersCommands :=
            filter (fun r => num_eqb (modifiers (fst r)) mostModifiers)
                   highestScoreCommands in
          option_map fst (hd_error mostModifiersCommands)
      end
  end.

(** The signature the handler matches against the key history:
    [keys.map(key => key.toUpperCase().charCodeAt(0)).join('')]. *)
Definition commandKeyCodes (c : KeyedCommand) : list (option nat) :=
  map (fun key => charCodeAt0 (toUpperCase key)) (keys c).

Definition signature (c : KeyedCommand) : string :=
  join "" (map code_toString (commandKeyCodes c)).

End Commands.

(* ================================================================== *)
(** ** The keydown handler and its closure *)
(* ================================================================== *)

Module Matcher.
Import JS Commands.

(** What the handler reads of a [KeyboardEvent]; [tagName] is
    [event.target.tagName]. *)
Record KeyboardEvent : Type := mkEvent {
  keyCode : nat;
  metaKey : bool;
  ctrlKey : bool;
  shiftKey : bool;
  altKey : bool;
  tagName : string
}.

Definition isInputEvent (event : KeyboardEvent) : bool :=
  existsb (String.eqb (tagName event))
          ["INPUT"%string; "TEXTAREA"%string; "SELECT"%string].

(** The only exception the closure can raise by itself: a property read on
    [undefined]. *)
Inductive Error : Type := TypeError.

(** The mutable part of the closure, the clock, and what an observer sees:
    - [recentKeyCodes], [validCommands]: the two [let] arrays;
    - [resetTimer], [rankTimer]: the pending deadline of each debounced
      function, in milliseconds, if one is pending;
    - [calls]: the commands whose [callback] has run, oldest first;
    - [prevented]: how many times [event.preventDefault()] has run;
    - [uncaught]: exceptions that escaped a timer callback, oldest first. *)
Record State : Type := mkState {
  recentKeyCodes : list nat;
  validCommands : list KeyedCommand;
  resetTimer : option nat;
  rankTimer : option nat;
  now : nat;
  calls : list KeyedCommand;
  prevented : nat;
  uncaught : list Error
}.

Definition init : State := mkState [] [] None None 0 [] 0 [].

Definition set_recentKeyCodes (l : list nat) (st : State) : State :=
  mkState l (validCommands st) (resetTimer st) (rankTimer st) (now st)
          (calls st) (prevented st) (uncaught st).

Definition set_validCommands (l : list KeyedCommand) (st : State) : State :=
  mkState (recentKeyCodes st) l (resetTimer st) (rankTimer st) (now st)
          (calls st) (prevented st) (uncaught st).

Definition set_resetTimer (t : option nat) (st : State) : State :=
  mkState (recentKeyCodes st) (validCommands st) t (rankTimer st) (now st)
          (calls st) (prevented st) (uncaught st).

Definition set_rankTimer (t : option nat) (st : State) : State :=
  mkState (recentKeyCodes st) (validCommands st) (resetTimer st) t (now st)
          (calls st) (prevented st) (uncaught st).

Definition set_now (t : nat) (st : State) : State :=
  mkState (recentKeyCodes st) (validCommands st) (resetTimer st)
          (rankTimer st) t (calls st) (prevented st) (uncaught st).

(** [command.callback()]. *)
Definition invoke (command : KeyedCommand) (st : State) : State :=
  mkState (recentKeyCodes st) (validCommands st) (resetTimer st)
          (rankTimer st) (now st) (calls st ++ [command]) (prevented st)
          (uncaught st).

(** [event.preventDefault()]. *)
Definition preventDefault (st : State) : State :=
  mkState (recentKeyCodes st) (validCommands st) (resetTimer st)
          (rankTimer st) (now st) (calls st) (S (prevented st)) (uncaught st).

Definition record_uncaught (e : Error) (st : State) : State :=
  mkState (recentKeyCodes st) (validCommands st) (resetTimer st)
          (rankTimer st) (now st) (calls st) (prevented st)
          (uncaught st ++ [e]).

(** Modelled from the spec: the [debounce] helper of
    [$lib/helpers/debounce], which is not part of the sources.  Calling the
    debounced function defers its action by the delay from the most recent
    call, cancelling any earlier pending call: the pending deadline becomes
    [now + delay]. *)
Definition debounce_call (delay : nat) (now : nat) : option nat :=
  Some (now + delay).

(** Modelled from the spec: the [immediate] operation of the [debounce]
    helper, which is not part of the sources.  It runs the action
    synchronously and cancels the pending timer: no deadline is left. *)
Definition debounce_cancel : option nat := None.

(** Outcome of a function body that may throw. *)
Inductive result : Type :=
  | Ok (st : State)
  | Throw (e : Error) (st : State).

(** Every pending candidate and every command invoked so far has the
    property [P]: the shape of the invariants of the closure. *)
Definition Invoked_only (P : KeyedCommand -> Prop) (st : State) : Prop :=
  Forall P (validCommands st) /\ Forall P (calls st).

Section Closure.

(** [isMac()] of [$lib/helpers/platform], and the two values the derived
    store hands to the closure: the flattened command list and the
    global-enabled flag. *)
Variable isMac : bool.
Variable commandsArr : list Command.
Variable enabled : bool.

(** The action of [reset]. *)
Definition reset_action (st : State) : State :=
  set_validCommands [] (set_recentKeyCodes [] st).

(** [reset()]. *)
Definition reset_call (st : State) : State :=
  set_resetTimer (debounce_call 2000 (now st)) st.

(** [reset.immediate()]. *)
Definition reset_immediate (st : State) : State :=
  set_resetTimer debounce_cancel (reset_action st).

(** The action of [rankAndExecute]: [command.callback()] throws when
    [getHighestPriorityCommand] returned [undefined], before anything else
    is done. *)
Definition rankAndExecute_action (st : State) : result :=
  match getHighestPriorityCommand (validCommands st) with
  | None => Throw TypeError st
  | Some command => Ok (reset_immediate (invoke command st))
  end.

(** [rankAndExecute()]. *)
Definition rankAndExecute_call (st : State) : State :=
  set_rankTimer (debounce_call 200 (now st)) st.

Definition execute (command : KeyedCommand) (st : State) : State :=
  if hasDisputing command commandsArr then
    rankAndExecute_call (set_validCommands (validCommands st ++ [command]) st)
  else
    reset_immediate (invoke command st).

(** The guard at the head of the loop body: [true] when none of the three
    [continue] statements is taken. *)
Definition eligible (event : KeyboardEvent) (command : KeyedCommand) : bool :=
  if negb (truthy (forceEnable command)) then
    if truthy (disabled command) then false
    else if negb enabled then false
    else if isInputEvent event then false
    else true
  else true.

Definition isMetaPressed (event : KeyboardEvent) (command : KeyedCommand)
  : bool :=
  if truthy (ctrl command)
  then (if isMac then metaKey event else ctrlKey event)
  else true.

Definition isShiftPressed (event : KeyboardEvent) (command : KeyedCommand)
  : bool :=
  if truthy (shift command) then shiftKey event else true.

Definition isAltPressed (event : KeyboardEvent) (command : KeyedCommand)
  : bool :=
  if truthy (alt command) then altKey event else true.

Definition allKeysPressed (recent : list nat) (command : KeyedCommand)
  : bool :=
  includes (join "" (map number_toString recent))
           (join "" (map code_toString (commandKeyCodes command))).

(** The condition of the [if] that ends the loop body. *)
Definition matches (recent : list nat) (event : KeyboardEvent)
           (command : KeyedCommand) : bool :=
  allKeysPressed recent command && isMetaPressed event command
  && isShiftPressed event command && isAltPressed event command.

(** One iteration of [for (const command of commandsArr)]. *)
Definition loop_body (event : KeyboardEvent) (st : State) (c : Command)
  : State :=
  match isKeyedCommand c with
  | None => st
  | Some command =>
      if eligible event command then
        if matches (recentKeyCodes st) event command
        then execute command (preventDefault st)
        else st
      else st
  end.

(** The function the derived store returns. *)
Definition handler (event : KeyboardEvent) (st : State) : State :=
  let st1 :=
    set_recentKeyCodes (recentKeyCodes st ++ [keyCode event]) st in
  let st2 := reset_call st1 in
  fold_left (loop_body event) commandsArr st2.

(** The inactivity timer fires. *)
Definition fire_reset (st : State) : State :=
  reset_action (set_resetTimer None st).

(** The resolution timer fires; an exception thrown by its action is
    uncaught. *)
Definition fire_rank (st : State) : State :=
  match rankAndExecute_action (set_rankTimer None st) with
  | Ok st' => st'
  | Throw e st' => record_uncaught e st'
  end.

(** The pending timer that is due first, fired if it is due by [t].  Both
    timers are never due at the same instant (the inactivity timer is
    re-armed by every keydown, the resolution timer only by some, with a
    shorter delay); the resolution timer is listed first. *)
Definition fire_next (t : nat) (st : State) : option State :=
  match rankTimer st, resetTimer st with
  | Some r, Some s =>
      if r <=? s then (if r <=? t then Some (fire_rank st) else None)
      else (if s <=? t then Some (fire_reset st) else None)
  | Some r, None => if r <=? t then Some (fire_rank st) else None
  | None, Some s => if s <=? t then Some (fire_reset st) else None
  | None, None => None
  end.

(** [dt] milliseconds pass without a keydown.  No timer action arms a
    timer, so at most two fire. *)
Definition elapse (dt : nat) (st : State) : State :=
  let t := now st + dt in
  let st' :=
    match fire_next t st with
    | None => st
    | Some st1 =>
        match fire_next t st1 with
        | None => st1
        | Some st2 => st2
        end
    end in
  set_now t st'.

(** What can happen to the closure: a keydown is dispatched to the handler,
    or time passes. *)
Inductive Action : Type :=
  | KeyDown (event : KeyboardEvent)
  | Elapse (dt : nat).

Definition step (st : State) (a : Action) : State :=
  match a with
  | KeyDown event => handler event st
  | Elapse dt => elapse dt st
  end.

Definition run (actions : list Action) (st : State) : State :=
  fold_left step actions st.

End Closure.

End Matcher.

(* ================================================================== *)
(** ** The stores *)
(* ================================================================== *)

Module Stores.
Import JS Commands Matcher.

(** The derived store [commands]: [Array.from($commandMap.values()).flat()].
    The values are arrays of command objects, so [flat()] concatenates
    them. *)
Definition commands (commandMap : Map (list Command)) : list Command :=
  List.concat (Map_values commandMap).

(** The derived store [commandsEnabled]. *)
Definition commandsEnabled (disabledMap : Map bool) : bool :=
  forallb (fun disabled => negb disabled) (Map_values disabledMap).

(** [registerCommands.subscribe]: [uuid] is the value drawn from
    [crypto.randomUUID()].  [register_set] is the callback handed to the
    runner, [register_release] the function [subscribe] returns. *)
Definition register_set (uuid : string) (newCommands : list Command)
           (curr : Map (list Command)) : Map (list Command) :=
  Map_set uuid newCommands curr.

Definition register_release (uuid : string) (curr : Map (list Command))
  : Map (list Command) :=
  Map_delete uuid curr.

(** [disableCommands.subscribe], likewise. *)
Definition disable_set (uuid : string) (disabled : bool) (curr : Map bool)
  : Map bool :=
  Map_set uuid disabled curr.

Definition disable_release (uuid : string) (curr : Map bool) : Map bool :=
  Map_delete uuid curr.

(** A value of the derived store [commandCenterKeyDownHandler]: a closure
    over [commandsArr] and [enabled], with its own mutable state. *)
Record Handler : Type := mkHandler {
  h_commandsArr : list Command;
  h_enabled : bool;
  h_state : State
}.

(** The callback given to [derived]: it flattens the map it receives and
    starts from two empty arrays and no pending timer. *)
Definition commandCenterKeyDownHandler (commandMap : Map (list Command))
           (enabled : bool) : Handler :=
  mkHandler (List.concat (Map_values commandMap)) enabled init.

(** The two writable stores, the current value of the handler store, and
    the closures that value has replaced, oldest first.  Nothing in the
    source cancels the timers of a closure when the store gets a new
    value, so a replaced closure lives on with its arrays and its
    timers. *)
Record World : Type := mkWorld {
  commandMap : Map (list Command);
  disabledMap : Map bool;
  keyDownHandler : Handler;
  retired : list Handler
}.

Definition world0 : World :=
  mkWorld Map_empty Map_empty
          (commandCenterKeyDownHandler Map_empty (commandsEnabled Map_empty))
          [].

(** The four ways the writable stores are updated. *)
Inductive StoreOp : Type :=
  | RegisterSet (uuid : string) (newCommands : list Command)
  | RegisterRelease (uuid : string)
  | DisableSet (uuid : string) (disabled : bool)
  | DisableRelease (uuid : string).

(** [commandMap.update]: the store holds an object, so every update
    notifies its subscribers and the callback of the handler store runs
    again.  The closure it replaces is kept as it is. *)
Definition update_commandMap
           (f : Map (list Command) -> Map (list Command)) (w : World) : World :=
  let m := f (commandMap w) in
  mkWorld m (disabledMap w)
          (commandCenterKeyDownHandler m (commandsEnabled (disabledMap w)))
          (retired w ++ [keyDownHandler w]).

(** [disabledMap.update]: [commandsEnabled] is computed again; it holds a
    boolean, so the handler store is notified only when that boolean
    changes; the closure it then replaces is kept as it is. *)
Definition update_disabledMap (f : Map bool -> Map bool) (w : World) : World :=
  let d := f (disabledMap w) in
  if Bool.eqb (commandsEnabled d) (commandsEnabled (disabledMap w)) then
    mkWorld (commandMap w) d (keyDownHandler w) (retired w)
  else
    mkWorld (commandMap w) d
            (commandCenterKeyDownHandler (commandMap w) (commandsEnabled d))
            (retired w ++ [keyDownHandler w]).

Definition apply_op (op : StoreOp) (w : World) : World :=
  match op with
  | RegisterSet uuid newCommands =>
      update_commandMap (register_set uuid newCommands) w
  | RegisterRelease uuid => update_commandMap (register_release uuid) w
  | DisableSet uuid disabled => update_disabledMap (disable_set uuid disabled) w
  | DisableRelease uuid => update_disabledMap (disable_release uuid) w
  end.

Definition touches_commandMap (op : StoreOp) : bool :=
  match op with
  | RegisterSet _ _ | RegisterRelease _ => true
  | DisableSet _ _ | DisableRelease _ => false
  end.

(** A handler value receiving keydowns and the passing of time. *)
Definition handler_run (isMac : bool) (actions : list Action) (h : Handler)
  : Handler :=
  mkHandler (h_commandsArr h) (h_enabled h)
            (run isMac (h_commandsArr h) (h_enabled h) actions (h_state h)).

(** A replaced closure receives no keydown any more, but time passes for
    it as for the others and its timers fire. *)
Definition retired_step (h : Handler) (a : Action) : Handler :=
  match a with
  | KeyDown _ => h
  | Elapse dt =>
      mkHandler (h_commandsArr h) (h_enabled h) (elapse dt (h_state h))
  end.

Definition retired_run (actions : list Action) (h : Handler) : Handler :=
  fold_left retired_step actions h.

(** What happens in the page: a store is updated, or the current value of
    the handler store receives keydowns while time passes for every
    closure. *)
Inductive Event : Type :=
  | Store (op : StoreOp)
  | Keyboard (actions : list Action).

Definition world_step (isMac : bool) (w : World) (e : Event) : World :=
  match e with
  | Store op => apply_op op w
  | Keyboard actions =>
      mkWorld (commandMap w) (disabledMap w)
              (handler_run isMac actions (keyDownHandler w))
              (map (retired_run actions) (retired w))
  end.

Definition world_run (isMac : bool) (es : list Event) (w : World) : World :=
  fold_left (world_step isMac) es w.

(** The handler value agrees with the two stores it is derived from. *)
Definition in_sync (w : World) : Prop :=
  h_commandsArr (keyDownHandler w) = commands (commandMap w) /\
  h_enabled (keyDownHandler w) = commandsEnabled (disabledMap w).

(** Whether a store update gives the handler store a new value: the
    command map was updated, or the global-enabled flag changed. *)
Definition rebuilds (op : StoreOp) (w : World) : bool :=
  touches_commandMap op
  || negb (Bool.eqb (commandsEnabled (disabledMap (apply_op op w)))
                    (commandsEnabled (disabledMap w))).

(** The keydowns and waits the handler in place has received since it was
    built, given those ([typed]) it had received before [es] happened. *)
Fixpoint typed_since_rebuild (isMac : bool) (w : World) (es : list Event)
         (typed : list Action) : list Action :=
  match es with
  | [] => typed
  | Store op :: es' =>
      typed_since_rebuild isMac (apply_op op w) es'
                          (if rebuilds op w then [] else typed)
  | Keyboard actions :: es' =>
      typed_since_rebuild isMac (world_step isMac w (Keyboard actions)) es'
                          (typed ++ actions)
  end.

(** A closure has only ever held and invoked commands of its own
    snapshot. *)
Definition within_snapshot (h : Handler) : Prop :=
  Invoked_only (fun c => In (Keyed c) (h_commandsArr h)) (h_state h).

End Stores.

(* ================================================================== *)
(** ** The properties the specification states, in its own words *)
(* ================================================================== *)

Module Spec.
Import JS Commands.

(** Section 4.3, step 5: another registered chorded command whose signature
    is a substring of the command's signature, or vice versa, and whose rank
    is not below the command's. *)
Definition disputes_by_signature (command : KeyedCommand)
           (allCommands : list Command) : Prop :=
  exists other : KeyedCommand,
    In (Keyed other) allCommands /\
    oid other <> oid command /\
    (substring_of (signature command) (signature other) \/
     substring_of (signature other) (signature command)) /\
    getCommandRank command <= getCommandRank other.

(** What the code compares instead: the key labels joined with [+]. *)
Definition disputes_by_labels (command : KeyedCommand)
           (allCommands : list Command) : Prop :=
  exists other : KeyedCommand,
    In (Keyed other) allCommands /\
    oid other <> oid command /\
    (substring_of (join "+" (keys command)) (join "+" (keys other)) \/
     substring_of (join "+" (keys other)) (join "+" (keys command))) /\
    getCommandRank command <= getCommandRank other.

(** Section 4.4: the members of [l] no other member exceeds under [f]. *)
Definition maximal (f : KeyedCommand -> nat) (l : list KeyedCommand)
  : list KeyedCommand :=
  filter (fun c => forallb (fun d => f d <=? f c) l) l.

(** Section 4.4, [winner(candidates)]. *)
Definition winner (candidates : list KeyedCommand) : option KeyedCommand :=
  match candidates with
  | [c] => Some c
  | _ =>
      match maximal getCommandRank candidates with
      | [c] => Some c
      | top => hd_error (maximal modifiers top)
      end
  end.

(** Section 4.4, [rank(command)]. *)
Definition rank (c : KeyedCommand) : nat :=
  List.length (keys c)
  + 10 * (Nat.b2n (truthy (ctrl c)) + Nat.b2n (truthy (shift c))
          + Nat.b2n (truthy (alt c))).

End Spec.

(* ================================================================== *)
(** ** Commands and events used in the examples *)
(* ================================================================== *)

Module Examples.
Import JS Commands Matcher.

(** A chorded command with the given identity and key labels, nothing else
    set. *)
Definition chord (id : nat) (ks : list string) : KeyedCommand :=
  mkKeyed (mkBase id id None None None None None) ks None None None.

(** The same with [ctrl: true]. *)
Definition ctrl_chord (id : nat) (ks : list string) : KeyedCommand :=
  mkKeyed (mkBase id id None None None None None) ks (Some true) None None.

(** A keydown of the key with the given code, no modifier held, target
    [<body>]. *)
Definition press (code : nat) : KeyboardEvent :=
  mkEvent code false false false false "BODY".

Definition goto_d : KeyedCommand := chord 1 ["g"%string; "d"%string].
Definition just_d : KeyedCommand := chord 2 ["d"%string].
Definition just_l : KeyedCommand := chord 3 ["l"%string].
Definition c_then_d : KeyedCommand := chord 4 ["c"%string; "d"%string].
Definition just_k : KeyedCommand := chord 5 ["k"%string].
Definition ctrl_k : KeyedCommand := ctrl_chord 6 ["k"%string].
Definition other_k : KeyedCommand := chord 7 ["k"%string].
Definition just_g : KeyedCommand := chord 10 ["g"%string].

(** [g] then [d], with [disabled: true]. *)
Definition disabled_goto_d : KeyedCommand :=
  mkKeyed (mkBase 11 11 None (Some true) None None None)
          ["g"%string; "d"%string] None None None.

(** [k] again, with [forceEnable: true]. *)
Definition forced_k : KeyedCommand :=
  mkKeyed (mkBase 8 8 None None (Some true) None None) ["k"%string]
          None None None.

End Examples.

(* ================================================================== *)
(** ** The grouped view *)
(* ================================================================== *)

Module Grouping.
Import JS Commands.

(** The string a [CommandGroup] value is. *)
Definition group_name (g : CommandGroup) : string :=
  match g with
  | ungrouped => "ungrouped"
  | navigation => "navigation"
  | projects => "projects"
  | organizations => "organizations"
  | auth => "auth"
  | help => "help"
  | account => "account"
  | platforms => "platforms"
  | databases => "databases"
  | functions => "functions"
  | storage => "storage"
  end%string.

(** The [BaseCommand] fields every command has. *)
Definition command_base (c : Command) : BaseCommand :=
  match c with
  | Plain b => b
  | Keyed k => base k
  end.

(** [res.get(key) || []]: an array is truthy, so the default is taken only
    for a missing key. *)
Definition get_or_empty (res : Map (list Command)) (key : string)
  : list Command :=
  match Map_get res key with
  | Some l => l
  | None => []
  end.

(** The body of the loop of [groupedCommands].  No group name is the empty
    string, so [!command.group] holds exactly when the field is absent. *)
Definition grouped_step (res : Map (list Command)) (command : Command)
  : Map (list Command) :=
  match group (command_base command) with
  | None =>
      Map_set "ungrouped" (get_or_empty res "ungrouped" ++ [command]) res
  | Some g =>
      Map_set (group_name g) (get_or_empty res (group_name g) ++ [command])
              res
  end.

(** The derived store [groupedCommands]. *)
Definition groupedCommands (commands : list Command) : Map (list Command) :=
  fold_left grouped_step commands Map_empty.

(** The key under which [groupedCommands] files a command. *)
Definition group_key (command : Command) : string :=
  match group (command_base command) with
  | None => "ungrouped"%string
  | Some g => group_name g
  end.

End Grouping.

(* ================================================================== *)
(** ** Invariants of the stores and of the closure *)
(* ================================================================== *)

Module Invariants.
Import JS Commands Matcher Stores.

(** [Array.from(m.keys())]. *)
Definition Map_keys {V : Type} (m : Map V) : list string := map fst m.

(** No key occurs twice: what a JavaScript [Map] guarantees. *)
Definition unique_keys {V : Type} (m : Map V) : Prop := NoDup (Map_keys m).

(** The timers of a closure, as every reachable state has them: a pending
    deadline lies in the future and no further than its delay, the
    resolution timer is due before the inactivity timer, candidates are
    pending only while the resolution timer is, and keys are remembered
    only while the inactivity timer is. *)
Definition timers_wf (st : State) : Prop :=
  (forall r, rankTimer st = Some r -> now st < r /\ r <= now st + 200) /\
  (forall s, resetTimer st = Some s -> now st < s /\ s <= now st + 2000) /\
  (forall r s, rankTimer st = Some r -> resetTimer st = Some s -> r < s) /\
  (validCommands st <> [] -> rankTimer st <> None) /\
  (recentKeyCodes st <> [] -> resetTimer st <> None).

(** Inside the loop of one keydown the inactivity timer is either the one
    this keydown armed or none. *)
Definition timers_in_loop (st : State) : Prop :=
  timers_wf st /\
  (resetTimer st = None \/ resetTimer st = Some (now st + 2000)).

(** A member of the registry that disputes with another member. *)
Definition disputing_in (commandsArr : list Command) (c : KeyedCommand)
  : Prop :=
  In (Keyed c) commandsArr /\ hasDisputing c commandsArr = true.

(** Nothing is waiting for a resolution and nothing has gone wrong. *)
Definition quiet (st : State) : Prop :=
  rankTimer st = None /\ uncaught st = [] /\ validCommands st = [].

(** How many of the two timers are pending. *)
Definition pending_timers (st : State) : nat :=
  match rankTimer st with Some _ => 1 | None => 0 end
  + match resetTimer st with Some _ => 1 | None => 0 end.

(** Both maps of a world have unique keys. *)
Definition world_unique_keys (w : World) : Prop :=
  unique_keys (commandMap w) /\ unique_keys (disabledMap w).

(** What a command that passed the loop guard of a closure over [enabled]
    satisfies. *)
Definition passed_guard (enabled : bool) (c : KeyedCommand) : Prop :=
  truthy (forceEnable c) = true \/
  (truthy (disabled c) = false /\ enabled = true).

End Invariants.

(* ================================================================== *)
(** ** Facts about the JavaScript primitives *)
(* ================================================================== *)

Import JS Commands Matcher Stores Spec Examples.

Lemma startsWith_spec (s sub : string) :
  startsWith s sub = true <-> exists post, s = (sub ++ post)%string.
Proof.
  revert s; induction sub as [|b sub IH]; intros s; simpl.
  - split; [intros _; exists s; reflexivity | reflexivity].
  - destruct s as [|a s].
    + split; [discriminate | intros [post H]; discriminate].
    + rewrite andb_true_iff, Ascii.eqb_eq, IH. split.
      * intros [-> [post ->]]. exists post. reflexivity.
      * intros [post H]. injection H as -> ->. split; [reflexivity | eauto].
Qed.

Lemma includes_spec (s sub : string) :
  includes s sub = true <-> substring_of sub s.
Proof.
  unfold substring_of. induction s as [|a s IH].
  - cbn [includes]. rewrite orb_false_r, startsWith_spec. split.
    + intros [post H]. exists EmptyString, post. exact H.
    + intros [pre [post H]]. destruct pre; [|discriminate].
      exists post. exact H.
  - cbn [includes]. rewrite orb_true_iff, startsWith_spec, IH. split.
    + intros [[post H] | [pre [post H]]].
      * exists EmptyString, post. exact H.
      * exists (String a pre), post. simpl. now rewrite H.
    + intros [pre [post H]]. destruct pre as [|b pre].
      * left. exists post. exact H.
      * right. simpl in H. injection H as _ H. eauto.
Qed.

(** [Math.max] of a non-empty list is one of its members and bounds them
    all. *)
Lemma fold_num_max_Num (l : list nat) (a : nat) :
  exists m,
    fold_left (fun acc n => num_max acc (Num n)) l (Num a) = Num m /\
    (m = a \/ In m l) /\ a <= m /\ (forall x, In x l -> x <= m).
Proof.
  revert a; induction l as [|x l IH]; intros a; simpl.
  - exists a. repeat split; auto. intros x [].
  - destruct (IH (Nat.max a x)) as [m [E [Hin [Hle Hall]]]].
    exists m. split; [exact E|]. repeat split.
    + destruct Hin as [-> | Hin]; [|auto].
      destruct (Nat.max_spec a x) as [[_ ->] | [_ ->]]; auto.
    + lia.
    + intros y [<- | Hy]; [lia | auto].
Qed.

Lemma Math_max_spec (x : nat) (l : list nat) :
  exists m,
    Math_max (x :: l) = Num m /\ In m (x :: l) /\
    (forall y, In y (x :: l) -> y <= m).
Proof.
  unfold Math_max. simpl.
  destruct (fold_num_max_Num l x) as [m [E [Hin [Hle Hall]]]].
  exists m. split; [exact E|]. split.
  - destruct Hin as [-> | Hin]; [left; reflexivity | right; exact Hin].
  - intros y [<- | Hy]; auto.
Qed.

(** Comparing with [Math.max] of the whole list selects the members that
    no member exceeds. *)
Lemma num_eqb_Math_max {A : Type} (f : A -> nat) (l : list A) (a : A) :
  In a l ->
  num_eqb (f a) (Math_max (map f l)) = forallb (fun d => f d <=? f a) l.
Proof.
  intros Ha. destruct l as [|x l]; [destruct Ha|].
  change (map f (x :: l)) with (f x :: map f l).
  destruct (Math_max_spec (f x) (map f l)) as [m [-> [Hin Hall]]].
  change (f x :: map f l) with (map f (x :: l)) in Hin, Hall.
  simpl num_eqb. apply eq_true_iff_eq.
  rewrite Nat.eqb_eq, forallb_forall. split.
  - intros E d Hd. apply Nat.leb_le. rewrite E. apply Hall.
    apply in_map. exact Hd.
  - intros H. apply Nat.le_antisymm.
    + apply Hall. apply in_map. exact Ha.
    + apply in_map_iff in Hin. destruct Hin as [d [<- Hd]].
      apply Nat.leb_le. apply H. exact Hd.
Qed.

Lemma filter_map_swap {A B : Type} (f : A -> B) (p : B -> bool) (l : list A) :
  filter p (map f l) = map f (filter (fun a => p (f a)) l).
Proof.
  induction l as [|a l IH]; simpl; [reflexivity|].
  destruct (p (f a)); simpl; now rewrite IH.
Qed.

(* ================================================================== *)
(** ** The stores: availability overlay and registry *)
(* ================================================================== *)

Lemma Map_set_fresh {V : Type} (m : Map V) (k : string) (v : V) :
  Map_get m k = None -> Map_set k v m = m ++ [(k, v)].
Proof.
  induction m as [|[k' v'] m IH]; simpl; [reflexivity|].
  destruct (String.eqb k' k); [discriminate|].
  intros H. now rewrite IH.
Qed.

Lemma Map_delete_fresh {V : Type} (m : Map V) (k : string) :
  Map_get m k = None -> Map_delete k m = m.
Proof.
  unfold Map_delete. induction m as [|[k' v'] m IH]; simpl; [reflexivity|].
  destruct (String.eqb k' k); [discriminate|].
  intros H. simpl. now rewrite IH.
Qed.

Lemma Map_delete_app {V : Type} (m m' : Map V) (k : string) :
  Map_delete k (m ++ m') = Map_delete k m ++ Map_delete k m'.
Proof. apply filter_app. Qed.

Lemma Map_get_delete_other {V : Type} (m : Map V) (k k' : string) :
  k' <> k -> Map_get (Map_delete k m) k' = Map_get m k'.
Proof.
  intros Hne. unfold Map_delete.
  induction m as [|[k0 v0] m IH]; simpl; [reflexivity|].
  destruct (String.eqb k0 k) eqn:E0; simpl.
  - apply String.eqb_eq in E0. subst k0.
    destruct (String.eqb k k') eqn:E1; [|exact IH].
    apply String.eqb_eq in E1. congruence.
  - destruct (String.eqb k0 k'); [reflexivity | exact IH].
Qed.

Lemma Map_get_set_other {V : Type} (m : Map V) (k k' : string) (v : V) :
  k' <> k -> Map_get (Map_set k v m) k' = Map_get m k'.
Proof.
  intros Hne. induction m as [|[k0 v0] m IH]; simpl.
  - destruct (String.eqb k k') eqn:E; [|reflexivity].
    apply String.eqb_eq in E. congruence.
  - destruct (String.eqb k0 k) eqn:E0; simpl.
    + apply String.eqb_eq in E0. subst k0.
      destruct (String.eqb k k') eqn:E1; [|reflexivity].
      apply String.eqb_eq in E1. congruence.
    + destruct (String.eqb k0 k'); [reflexivity | exact IH].
Qed.

Lemma commands_app (m m' : Map (list Command)) :
  commands (m ++ m') = commands m ++ commands m'.
Proof.
  unfold commands, Map_values. now rewrite map_app, concat_app.
Qed.

(** C7.  For every state of the availability map, the empty one included,
    the derived global-enabled flag is [true] exactly when no entry of the
    map holds [true]. *)
Theorem commandsEnabled_iff_no_true_entry (disabledMap : Map bool) :
  (commandsEnabled disabledMap = true <->
   ~ (exists uuid, In (uuid, true) disabledMap)) /\
  commandsEnabled Map_empty = true.
Proof.
  split; [|reflexivity].
  unfold commandsEnabled, Map_values. rewrite forallb_forall. split.
  - intros H [uuid Hin].
    specialize (H true). simpl in H.
    assert (In true (map snd disabledMap)) as Ht
        by (change true with (snd (uuid, true)); now apply in_map).
    specialize (H Ht). discriminate.
  - intros H d Hd. destruct d; [|reflexivity].
    exfalso. apply H. apply in_map_iff in Hd.
    destruct Hd as [[uuid v] [Hv Hin]]. simpl in Hv. subst v. eauto.
Qed.

(** C8.  Releasing a registration removes that registrant's entry only.
    With fresh, distinct identifiers for A and B: registering A, then B,
    then releasing B gives back the map that held A's registration, every
    other key reads as before the release, and the flattened view is the
    earlier view followed by A's commands in their order; starting from
    the empty registry it is exactly A's list. *)
Theorem release_keeps_other_registrants
        (m : Map (list Command)) (uuidA uuidB : string)
        (A B : list Command) :
  uuidA <> uuidB ->
  Map_get m uuidA = None ->
  Map_get m uuidB = None ->
  let m1 := register_set uuidA A m in
  let m2 := register_set uuidB B m1 in
  let m3 := register_release uuidB m2 in
  m3 = m1 /\
  commands m3 = commands m ++ A /\
  (m = Map_empty -> commands m3 = A) /\
  (forall k, k <> uuidB -> Map_get m3 k = Map_get m2 k).
Proof.
  intros Hne HA HB m1 m2 m3.
  assert (Map_get m1 uuidB = None) as HB1.
  { unfold m1, register_set. rewrite Map_get_set_other; auto. }
  assert (m3 = m1) as E.
  { unfold m3, m2, register_release, register_set.
    rewrite (Map_set_fresh m1 uuidB B HB1), Map_delete_app.
    rewrite (Map_delete_fresh m1 uuidB HB1).
    unfold Map_delete. simpl. rewrite String.eqb_refl. simpl.
    apply app_nil_r. }
  assert (commands m3 = commands m ++ A) as EC.
  { rewrite E. unfold m1, register_set.
    rewrite (Map_set_fresh m uuidA A HA), commands_app.
    unfold commands at 2. simpl. now rewrite app_nil_r. }
  repeat split.
  - exact E.
  - exact EC.
  - intros ->. exact EC.
  - intros k Hk. unfold m3, register_release.
    apply Map_get_delete_other. exact Hk.
Qed.

Lemma release_keeps_other_registrants_witness :
  "a"%string <> "b"%string /\
  Map_get (@Map_empty (list Command)) "a" = None /\
  Map_get (@Map_empty (list Command)) "b" = None /\
  commands
    (register_release "b"
       (register_set "b" [Keyed just_d]
          (register_set "a" [Keyed goto_d; Keyed just_k] Map_empty))) =
  [Keyed goto_d; Keyed just_k].
Proof.
  assert ("a"%string <> "b"%string) as Hne by discriminate.
  split; [exact Hne|]. split; [reflexivity|]. split; [reflexivity|].
  apply (release_keeps_other_registrants
           Map_empty "a" "b" [Keyed goto_d; Keyed just_k] [Keyed just_d]
           Hne eq_refl eq_refl).
  reflexivity.
Defined.

(* ================================================================== *)
(** ** Ranking policy and dispute detection *)
(* ================================================================== *)

Lemma modifiers_count (c : KeyedCommand) :
  modifiers c =
  Nat.b2n (truthy (ctrl c)) + Nat.b2n (truthy (shift c))
  + Nat.b2n (truthy (alt c)).
Proof.
  unfold modifiers. simpl.
  destruct (truthy (ctrl c)), (truthy (shift c)), (truthy (alt c));
    reflexivity.
Qed.

Lemma ranked_highest (l : list KeyedCommand) :
  let ranked := map (fun command => (command, getCommandRank command)) l in
  filter (fun r => num_eqb (snd r) (Math_max (map snd ranked))) ranked =
  map (fun command => (command, getCommandRank command))
      (maximal getCommandRank l).
Proof.
  intros ranked. unfold ranked, maximal.
  rewrite filter_map_swap, map_map. f_equal.
  apply filter_ext_in. intros c Hc.
  apply (num_eqb_Math_max getCommandRank l c Hc).
Qed.

Lemma ranked_most_modifiers (top : list KeyedCommand) :
  let ranked := map (fun command => (command, getCommandRank command)) top in
  filter (fun r : KeyedCommand * nat =>
            num_eqb (modifiers (fst r))
                    (Math_max (map (fun r : KeyedCommand * nat =>
                                      modifiers (fst r)) ranked)))
         ranked =
  map (fun command => (command, getCommandRank command))
      (maximal modifiers top).
Proof.
  intros ranked. unfold ranked, maximal.
  rewrite filter_map_swap, map_map. f_equal.
  apply filter_ext_in. intros c Hc.
  apply (num_eqb_Math_max modifiers top c Hc).
Qed.

Lemma hd_error_map_fst (l : list KeyedCommand) :
  option_map fst
    (hd_error (map (fun command => (command, getCommandRank command)) l)) =
  hd_error l.
Proof. destruct l; reflexivity. Qed.

(** The code's selection, on a list of two or more, in terms of
    [maximal]. *)
Lemma getHighestPriorityCommand_many (a b : KeyedCommand)
      (l : list KeyedCommand) :
  getHighestPriorityCommand (a :: b :: l) =
  match maximal getCommandRank (a :: b :: l) with
  | [c] => Some c
  | top => hd_error (maximal modifiers top)
  end.
Proof.
  unfold getHighestPriorityCommand.
  set (L := a :: b :: l). cbv zeta.
  rewrite (ranked_highest L).
  destruct (maximal getCommandRank L) as [|c [|d top]] eqn:E.
  - reflexivity.
  - reflexivity.
  - set (T := c :: d :: top).
    change (map (fun command => (command, getCommandRank command)) T)
      with ((c, getCommandRank c) :: (d, getCommandRank d)
            :: map (fun command => (command, getCommandRank command)) top).
    cbv iota beta.
    change ((c, getCommandRank c) :: (d, getCommandRank d)
            :: map (fun command => (command, getCommandRank command)) top)
      with (map (fun command => (command, getCommandRank command)) T).
    rewrite (ranked_most_modifiers T). apply hd_error_map_fst.
Qed.

(** C4.  The code's winner selection is the one of section 4.4: a single
    candidate is returned as it is; otherwise the candidates of maximal
    rank are kept, a single one is returned, and among several the first,
    in insertion order, of those with the most modifiers is returned.  The
    rank is the number of keys plus ten for each of ctrl, shift and alt
    that is set to true. *)
Theorem getHighestPriorityCommand_is_winner (candidates : list KeyedCommand) :
  getHighestPriorityCommand candidates = winner candidates /\
  (forall c, getHighestPriorityCommand [c] = Some c) /\
  (forall c, getCommandRank c = rank c).
Proof.
  split; [|split].
  - destruct candidates as [|a [|b l]]; [reflexivity | reflexivity |].
    rewrite getHighestPriorityCommand_many. reflexivity.
  - reflexivity.
  - intros c. unfold getCommandRank, rank. rewrite modifiers_count. lia.
Qed.

Lemma hasDisputing_iff (command : KeyedCommand) (allCommands : list Command) :
  hasDisputing command allCommands = true <->
  disputes_by_labels command allCommands.
Proof.
  unfold hasDisputing, disputes_by_labels. rewrite existsb_exists. split.
  - intros [other [Hin H]].
    destruct (Nat.eqb_spec (oid command) (command_oid other)) as [|Hne];
      [discriminate|].
    destruct other as [b|k]; simpl in H; [discriminate|].
    apply andb_true_iff in H. destruct H as [Hs Hr].
    apply orb_true_iff in Hs. apply Nat.leb_le in Hr.
    exists k. split; [exact Hin|]. split; [simpl in Hne; congruence|].
    split; [|exact Hr].
    destruct Hs as [Hs | Hs]; apply includes_spec in Hs; auto.
  - intros [other [Hin [Hne [Hs Hr]]]].
    exists (Keyed other). split; [exact Hin|]. simpl.
    destruct (Nat.eqb_spec (oid command) (oid other)) as [E|_];
      [congruence|].
    apply andb_true_iff. split; [|apply Nat.leb_le; exact Hr].
    apply orb_true_iff.
    destruct Hs as [Hs | Hs]; apply includes_spec in Hs; auto.
Qed.

(** C3, as the code has it.  A command disputes exactly when the flattened
    view holds another object, chorded, such that one of the two lists of
    key labels, joined with [+], is a substring of the other, and the
    command's rank is at most the other's. *)
Theorem hasDisputing_compares_joined_labels
        (command : KeyedCommand) (allCommands : list Command) :
  hasDisputing command allCommands = true <->
  exists other : KeyedCommand,
    In (Keyed other) allCommands /\
    oid other <> oid command /\
    (substring_of (join "+" (keys command)) (join "+" (keys other)) \/
     substring_of (join "+" (keys other)) (join "+" (keys command))) /\
    getCommandRank command <= getCommandRank other.
Proof. exact (hasDisputing_iff command allCommands). Qed.

(** C3, as stated, fails: with [l] and [c, d] registered, the signature
    [76] of the first is a substring of the signature [6768] of the second
    and the ranks are 1 and 2, yet the code finds no dispute, since [l]
    does not occur in [c+d]. *)
Lemma signature_dispute_not_detected :
  ~ (hasDisputing just_l [Keyed just_l; Keyed c_then_d] = true <->
     disputes_by_signature just_l [Keyed just_l; Keyed c_then_d]).
Proof.
  intros [_ H].
  assert (hasDisputing just_l [Keyed just_l; Keyed c_then_d] = true) as E.
  { apply H. exists c_then_d.
    split; [right; left; reflexivity|].
    split; [discriminate|].
    split; [|vm_compute; lia].
    left. exists "6"%string, "8"%string. reflexivity. }
  vm_compute in E. discriminate.
Qed.

Lemma maximal_In (f : KeyedCommand -> nat) (l : list KeyedCommand)
      (c : KeyedCommand) :
  In c (maximal f l) -> In c l.
Proof. unfold maximal. intros H. apply filter_In in H. tauto. Qed.

Lemma maximal_nonempty (f : KeyedCommand -> nat) (l : list KeyedCommand) :
  l <> [] -> maximal f l <> [].
Proof.
  intros Hne. destruct l as [|x l]; [congruence|].
  destruct (Math_max_spec (f x) (map f l)) as [m [_ [Hin Hall]]].
  change (f x :: map f l) with (map f (x :: l)) in Hin, Hall.
  apply in_map_iff in Hin. destruct Hin as [d [Hd Hin]].
  assert (In d (maximal f (x :: l))) as H.
  { unfold maximal. apply filter_In. split; [exact Hin|].
    apply forallb_forall. intros e He. apply Nat.leb_le.
    rewrite Hd. apply Hall. apply in_map. exact He. }
  intros E. rewrite E in H. destruct H.
Qed.

Lemma getHighestPriorityCommand_In (l : list KeyedCommand)
      (c : KeyedCommand) :
  getHighestPriorityCommand l = Some c -> In c l.
Proof.
  destruct l as [|a [|b l]].
  - discriminate.
  - simpl. intros H. injection H as ->. left. reflexivity.
  - rewrite getHighestPriorityCommand_many.
    set (L := a :: b :: l).
    destruct (maximal getCommandRank L) as [|x [|y top]] eqn:E.
    + discriminate.
    + intros H. injection H as ->.
      apply (maximal_In getCommandRank). rewrite E. left. reflexivity.
    + intros H. set (T := x :: y :: top) in *.
      destruct (maximal modifiers T) as [|z rest] eqn:E'; [discriminate|].
      simpl in H. injection H as ->.
      apply (maximal_In getCommandRank). rewrite E.
      apply (maximal_In modifiers). rewrite E'. left. reflexivity.
Qed.

Lemma getHighestPriorityCommand_defined (l : list KeyedCommand) :
  l <> [] -> exists c, getHighestPriorityCommand l = Some c.
Proof.
  intros Hne. destruct l as [|a [|b l]].
  - congruence.
  - exists a. reflexivity.
  - rewrite getHighestPriorityCommand_many.
    set (L := a :: b :: l).
    destruct (maximal getCommandRank L) as [|x [|y top]] eqn:E.
    + exfalso. apply (maximal_nonempty getCommandRank L); [discriminate|].
      exact E.
    + eauto.
    + set (T := x :: y :: top).
      destruct (maximal modifiers T) as [|z rest] eqn:E'.
      * exfalso. apply (maximal_nonempty modifiers T); [discriminate|].
        exact E'.
      * exists z. reflexivity.
Qed.

(** C9.  On a non-empty candidate list the winner selection returns a
    command, and that command is a member of the list.  A resolution timer
    firing over such a list therefore throws nothing, runs the callback of
    that candidate and of no other, and clears both arrays. *)
Theorem getHighestPriorityCommand_total_on_candidates
        (candidates : list KeyedCommand) :
  candidates <> [] ->
  exists c,
    getHighestPriorityCommand candidates = Some c /\
    In c candidates /\
    forall st, validCommands st = candidates ->
      uncaught (fire_rank st) = uncaught st /\
      calls (fire_rank st) = calls st ++ [c] /\
      validCommands (fire_rank st) = [] /\
      recentKeyCodes (fire_rank st) = [].
Proof.
  intros Hne.
  destruct (getHighestPriorityCommand_defined candidates Hne) as [c E].
  exists c. split; [exact E|].
  split; [apply getHighestPriorityCommand_In; exact E|].
  intros st Hst. unfold fire_rank, rankAndExecute_action.
  simpl validCommands. rewrite Hst, E. simpl. auto.
Qed.

Lemma getHighestPriorityCommand_total_on_candidates_witness :
  [just_k; other_k] <> [] /\
  exists c,
    getHighestPriorityCommand [just_k; other_k] = Some c /\
    In c [just_k; other_k] /\
    forall st, validCommands st = [just_k; other_k] ->
      uncaught (fire_rank st) = uncaught st /\
      calls (fire_rank st) = calls st ++ [c] /\
      validCommands (fire_rank st) = [] /\
      recentKeyCodes (fire_rank st) = [].
Proof.
  assert ([just_k; other_k] <> []) as Hne by discriminate.
  split; [exact Hne|].
  exact (getHighestPriorityCommand_total_on_candidates
           [just_k; other_k] Hne).
Defined.

(* ================================================================== *)
(** ** The keydown handler: matching and eligibility *)
(* ================================================================== *)

Lemma signature_unfold (c : KeyedCommand) :
  signature c =
  join "" (map (fun key => code_toString (charCodeAt0 (toUpperCase key)))
               (keys c)).
Proof. unfold signature, commandKeyCodes. now rewrite map_map. Qed.

Lemma truthy_Some_true (o : option bool) : truthy o = true <-> o = Some true.
Proof.
  destruct o as [[|]|]; simpl; split; intros H;
    try reflexivity; try discriminate.
Qed.

Lemma guarded_modifier (o : option bool) (held : bool) :
  (if truthy o then held else true) = true <->
  (o = Some true -> held = true).
Proof.
  destruct o as [[|]|]; simpl; split; intros H; auto; try discriminate.
Qed.

(** C5.  For an eligible chorded command and a keydown event, the loop
    body runs [execute], after one [preventDefault], exactly when the
    command matches, and otherwise leaves the state alone; the command
    matches exactly when (1) the concatenation of the whole current key
    history contains the command's signature as a contiguous substring,
    the signature being the concatenation, in declared order, of the code
    of the first character of each upper-cased key label, and (2) every
    modifier the command sets to true is held in the event, the ctrl class
    being the meta key on a Mac and the control key elsewhere; a modifier
    the command does not set imposes nothing. *)
Theorem matches_iff_signature_and_modifiers
        (isMac : bool) (commandsArr : list Command) (enabled : bool)
        (event : KeyboardEvent) (st : State) (command : KeyedCommand) :
  eligible enabled event command = true ->
  (loop_body isMac commandsArr enabled event st (Keyed command) =
   if matches isMac (recentKeyCodes st) event command
   then execute commandsArr command (preventDefault st)
   else st) /\
  (matches isMac (recentKeyCodes st) event command = true <->
   substring_of
     (join "" (map (fun key => code_toString (charCodeAt0 (toUpperCase key)))
                   (keys command)))
     (join "" (map number_toString (recentKeyCodes st))) /\
   (ctrl command = Some true ->
    (if isMac then metaKey event else ctrlKey event) = true) /\
   (shift command = Some true -> shiftKey event = true) /\
   (alt command = Some true -> altKey event = true)).
Proof.
  intros Hel. split.
  - unfold loop_body. simpl. now rewrite Hel.
  - unfold matches, allKeysPressed, isMetaPressed, isShiftPressed,
      isAltPressed.
    rewrite !andb_true_iff, includes_spec, !guarded_modifier.
    fold (signature command). rewrite <- signature_unfold.
    tauto.
Qed.

Lemma matches_iff_signature_and_modifiers_witness :
  eligible true (press 68) goto_d = true /\
  (matches false [71; 68] (press 68) goto_d = true <->
   substring_of "7168"%string "7168"%string /\
   (ctrl goto_d = Some true -> ctrlKey (press 68) = true) /\
   (shift goto_d = Some true -> shiftKey (press 68) = true) /\
   (alt goto_d = Some true -> altKey (press 68) = true)).
Proof.
  split; [reflexivity|].
  exact (proj2 (matches_iff_signature_and_modifiers
                  false [Keyed goto_d] true (press 68)
                  (set_recentKeyCodes [71; 68] init) goto_d eq_refl)).
Defined.

Lemma isInputEvent_iff (event : KeyboardEvent) :
  isInputEvent event = true <->
  tagName event = "INPUT"%string \/ tagName event = "TEXTAREA"%string \/
  tagName event = "SELECT"%string.
Proof.
  unfold isInputEvent. simpl. rewrite !orb_true_iff, !String.eqb_eq.
  intuition discriminate.
Qed.

Lemma eligible_iff (enabled : bool) (event : KeyboardEvent)
      (command : KeyedCommand) :
  eligible enabled event command = true <->
  truthy (forceEnable command) = true \/
  (truthy (disabled command) = false /\ enabled = true /\
   isInputEvent event = false).
Proof.
  unfold eligible.
  destruct (truthy (forceEnable command)), (truthy (disabled command)),
    enabled, (isInputEvent event); simpl; intuition discriminate.
Qed.

(** *** What the closure can ever invoke *)

Section Invariant.

Variable isMac : bool.
Variable commandsArr : list Command.
Variable enabled : bool.

(** A property every command that passes the loop guard has. *)
Variable P : KeyedCommand -> Prop.
Hypothesis guard_gives_P :
  forall event command,
    In (Keyed command) commandsArr ->
    eligible enabled event command = true -> P command.

Local Abbreviation Inv := (Invoked_only P).

Lemma Inv_init : Inv init.
Proof. split; constructor. Qed.

Lemma Inv_reset_immediate (st : State) (command : KeyedCommand) :
  Inv st -> P command -> Inv (reset_immediate (invoke command st)).
Proof.
  intros [Hv Hc] Hp. split; simpl; [constructor|].
  apply Forall_app. split; [exact Hc | constructor; auto].
Qed.

Lemma Inv_execute (st : State) (command : KeyedCommand) :
  Inv st -> P command -> Inv (execute commandsArr command (preventDefault st)).
Proof.
  intros HI Hp. unfold execute.
  destruct (hasDisputing command commandsArr).
  - destruct HI as [Hv Hc]. split; simpl; [|exact Hc].
    apply Forall_app. split; [exact Hv | constructor; auto].
  - apply Inv_reset_immediate; [|exact Hp].
    destruct HI as [Hv Hc]. split; assumption.
Qed.

Lemma Inv_loop_body (event : KeyboardEvent) (st : State) (c : Command) :
  In c commandsArr -> Inv st ->
  Inv (loop_body isMac commandsArr enabled event st c).
Proof.
  intros Hin HI. unfold loop_body.
  destruct c as [b|command]; simpl; [exact HI|].
  destruct (eligible enabled event command) eqn:Hel; [|exact HI].
  destruct (matches isMac (recentKeyCodes st) event command); [|exact HI].
  apply Inv_execute; [exact HI|].
  apply (guard_gives_P event); assumption.
Qed.

Lemma Inv_loop (event : KeyboardEvent) (l : list Command) (st : State) :
  incl l commandsArr -> Inv st ->
  Inv (fold_left (loop_body isMac commandsArr enabled event) l st).
Proof.
  revert st. induction l as [|c l IH]; intros st Hl HI; simpl; [exact HI|].
  apply IH.
  - intros x Hx. apply Hl. right. exact Hx.
  - apply Inv_loop_body; [apply Hl; left; reflexivity | exact HI].
Qed.

Lemma Inv_handler (event : KeyboardEvent) (st : State) :
  Inv st -> Inv (handler isMac commandsArr enabled event st).
Proof.
  intros HI. unfold handler. apply Inv_loop; [apply incl_refl|].
  destruct HI as [Hv Hc]. split; assumption.
Qed.

Lemma Inv_fire_reset (st : State) : Inv st -> Inv (fire_reset st).
Proof. intros [Hv Hc]. split; simpl; [constructor | exact Hc]. Qed.

Lemma Inv_fire_rank (st : State) : Inv st -> Inv (fire_rank st).
Proof.
  intros [Hv Hc]. unfold fire_rank, rankAndExecute_action. simpl.
  destruct (getHighestPriorityCommand (validCommands st)) as [c|] eqn:E.
  - apply getHighestPriorityCommand_In in E.
    apply Inv_reset_immediate; [split; assumption|].
    rewrite Forall_forall in Hv. auto.
  - split; assumption.
Qed.

Lemma Inv_fire_next (t : nat) (st st' : State) :
  Inv st -> fire_next t st = Some st' -> Inv st'.
Proof.
  intros HI. unfold fire_next.
  destruct (rankTimer st) as [r|], (resetTimer st) as [s|];
    repeat match goal with
           | |- context [if ?b then _ else _] => destruct b
           end;
    intros H; inversion H; subst;
    auto using Inv_fire_rank, Inv_fire_reset.
Qed.

Lemma Inv_elapse (dt : nat) (st : State) : Inv st -> Inv (elapse dt st).
Proof.
  intros HI. unfold elapse.
  destruct (fire_next (now st + dt) st) as [st1|] eqn:E1.
  - pose proof (Inv_fire_next _ _ _ HI E1) as H1.
    destruct (fire_next (now st + dt) st1) as [st2|] eqn:E2.
    + pose proof (Inv_fire_next _ _ _ H1 E2) as [Hv Hc]. split; assumption.
    + destruct H1 as [Hv Hc]. split; assumption.
  - destruct HI as [Hv Hc]. split; assumption.
Qed.

Lemma Inv_run (actions : list Action) (st : State) :
  Inv st -> Inv (run isMac commandsArr enabled actions st).
Proof.
  revert st. induction actions as [|a actions IH]; intros st HI; simpl;
    [exact HI|].
  apply IH. destruct a as [event|dt]; simpl.
  - apply Inv_handler. exact HI.
  - apply Inv_elapse. exact HI.
Qed.

End Invariant.

(** C6.  The loop guard lets a command through exactly when it has
    [forceEnable], or it is not disabled, the global-enabled flag is true
    and the event does not come from an input, textarea or select element.
    So a command with [forceEnable] is always eligible; a disabled command
    without [forceEnable] never is; and whatever keys are pressed and
    however time passes, every callback the handler runs belongs to a
    command that has [forceEnable] or is not disabled. *)
Theorem eligibility_gate
        (isMac : bool) (commandsArr : list Command) (enabled : bool)
        (command : KeyedCommand) :
  (forall event,
     truthy (forceEnable command) = true ->
     eligible enabled event command = true) /\
  (forall event,
     truthy (forceEnable command) = false ->
     (eligible enabled event command = true <->
      truthy (disabled command) = false /\ enabled = true /\
      ~ (tagName event = "INPUT"%string \/ tagName event = "TEXTAREA"%string
         \/ tagName event = "SELECT"%string))) /\
  (truthy (disabled command) = true ->
   truthy (forceEnable command) = false ->
   (forall event, eligible enabled event command = false) /\
   (forall actions,
      ~ In command (calls (run isMac commandsArr enabled actions init)))).
Proof.
  split; [|split].
  - intros event Hf. apply eligible_iff. left. exact Hf.
  - intros event Hf. rewrite eligible_iff, Hf, <- isInputEvent_iff.
    destruct (isInputEvent event); intuition discriminate.
  - intros Hd Hf. split.
    + intros event. destruct (eligible enabled event command) eqn:E;
        [|reflexivity].
      apply eligible_iff in E. rewrite Hd, Hf in E.
      destruct E as [E | [E _]]; discriminate.
    + intros actions Hin.
      pose (P := fun c : KeyedCommand =>
                   truthy (forceEnable c) = true \/
                   truthy (disabled c) = false).
      assert (Invoked_only P (run isMac commandsArr enabled actions init))
        as [_ Hc].
      { apply Inv_run; [|apply Inv_init].
        intros event c _ Hel. apply eligible_iff in Hel. unfold P. tauto. }
      rewrite Forall_forall in Hc. specialize (Hc command Hin).
      unfold P in Hc. rewrite Hd, Hf in Hc. destruct Hc; discriminate.
Qed.

(* ================================================================== *)
(** ** Scenarios: a chord and its suffix *)
(* ================================================================== *)

Lemma hasDisputing_keyed_only (command : KeyedCommand) (l : list Command) :
  hasDisputing command l = hasDisputing command (map Keyed (keyed_only l)).
Proof.
  unfold hasDisputing.
  induction l as [|[b|k] l IH]; simpl; [reflexivity | |].
  - rewrite IH. now destruct (oid command =? oid b).
  - now rewrite IH.
Qed.

Lemma loop_keyed_only (isMac : bool) (commandsArr : list Command)
      (enabled : bool) (event : KeyboardEvent) (l : list Command)
      (st : State) :
  fold_left (loop_body isMac commandsArr enabled event) l st =
  fold_left (loop_body isMac commandsArr enabled event)
            (map Keyed (keyed_only l)) st.
Proof.
  revert st. induction l as [|[b|k] l IH]; intros st; simpl;
    [reflexivity | apply IH | apply IH].
Qed.

Lemma loop_body_no_match (isMac : bool) (commandsArr : list Command)
      (enabled : bool) (event : KeyboardEvent) (st : State)
      (command : KeyedCommand) :
  matches isMac (recentKeyCodes st) event command = false ->
  loop_body isMac commandsArr enabled event st (Keyed command) = st.
Proof.
  intros H. unfold loop_body. simpl. rewrite H.
  now destruct (eligible enabled event command).
Qed.

Lemma modifiers_zero (c : KeyedCommand) :
  modifiers c = 0 ->
  truthy (ctrl c) = false /\ truthy (shift c) = false /\
  truthy (alt c) = false.
Proof.
  rewrite modifiers_count.
  destruct (truthy (ctrl c)), (truthy (shift c)), (truthy (alt c));
    simpl; intros H; try discriminate; auto.
Qed.

Lemma matches_no_modifiers (isMac : bool) (recent : list nat)
      (event : KeyboardEvent) (c : KeyedCommand) (ks : list string) :
  keys c = ks -> modifiers c = 0 ->
  matches isMac recent event c =
  includes
    (join "" (map number_toString recent))
    (join "" (map (fun key => code_toString (charCodeAt0 (toUpperCase key)))
                  ks)).
Proof.
  intros Hk Hm. destruct (modifiers_zero c Hm) as [Hc [Hs Ha]].
  unfold matches, isMetaPressed, isShiftPressed, isAltPressed, allKeysPressed.
  rewrite Hc, Hs, Ha, !andb_true_r.
  fold (signature c). rewrite signature_unfold, Hk. reflexivity.
Qed.

(** Once the candidate list is empty, the passing of time runs no
    callback: the inactivity timer only clears, and the resolution timer
    finds no winner. *)
Lemma fire_next_no_candidates (t : nat) (st st' : State) :
  validCommands st = [] -> fire_next t st = Some st' ->
  validCommands st' = [] /\ calls st' = calls st.
Proof.
  intros Hv. unfold fire_next, fire_rank, fire_reset, rankAndExecute_action.
  simpl. rewrite Hv. simpl.
  destruct (rankTimer st) as [r|], (resetTimer st) as [s|];
    repeat match goal with
           | |- context [if ?b then _ else _] => destruct b
           end;
    intros H; inversion H; subst; simpl; auto.
Qed.

Lemma elapse_no_candidates (dt : nat) (st : State) :
  validCommands st = [] -> calls (elapse dt st) = calls st.
Proof.
  intros Hv. unfold elapse.
  destruct (fire_next (now st + dt) st) as [st1|] eqn:E1; [|reflexivity].
  destruct (fire_next_no_candidates _ _ _ Hv E1) as [Hv1 Hc1].
  destruct (fire_next (now st + dt) st1) as [st2|] eqn:E2; simpl;
    [|exact Hc1].
  destruct (fire_next_no_candidates _ _ _ Hv1 E2) as [_ Hc2]. congruence.
Qed.

Section ChordAndSuffix.

Variable isMac : bool.
Variable commandsArr : list Command.
Variable enabled : bool.
Variables A B : KeyedCommand.

Hypothesis keys_A : keys A = ["g"%string; "d"%string].
Hypothesis keys_B : keys B = ["d"%string].
Hypothesis plain_A : modifiers A = 0.
Hypothesis plain_B : modifiers B = 0.
Hypothesis distinct : oid A <> oid B.
Hypothesis registry :
  keyed_only commandsArr = [A; B] \/ keyed_only commandsArr = [B; A].

Lemma suffix_disputes_chord_does_not :
  hasDisputing A commandsArr = false /\ hasDisputing B commandsArr = true.
Proof.
  rewrite (hasDisputing_keyed_only A), (hasDisputing_keyed_only B).
  assert ((oid A =? oid B) = false) as EAB
      by (apply Nat.eqb_neq; exact distinct).
  assert ((oid B =? oid A) = false) as EBA
      by (apply Nat.eqb_neq; intros E; apply distinct; now symmetry).
  destruct registry as [-> | ->]; unfold hasDisputing, getCommandRank; simpl;
    rewrite keys_A, keys_B, plain_A, plain_B, !Nat.eqb_refl, EAB, EBA;
    split; reflexivity.
Qed.

Lemma first_key_matches_nothing (g : KeyboardEvent) :
  keyCode g = 71 ->
  handler isMac commandsArr enabled g init =
  mkState [71] [] (Some 2000) None 0 [] 0 [].
Proof.
  intros Hg. unfold handler. rewrite loop_keyed_only.
  assert (forall st, recentKeyCodes st = [71] ->
            loop_body isMac commandsArr enabled g st (Keyed A) = st) as HA.
  { intros st Hst. apply loop_body_no_match. rewrite Hst.
    rewrite (matches_no_modifiers _ _ _ _ _ keys_A plain_A). reflexivity. }
  assert (forall st, recentKeyCodes st = [71] ->
            loop_body isMac commandsArr enabled g st (Keyed B) = st) as HB.
  { intros st Hst. apply loop_body_no_match. rewrite Hst.
    rewrite (matches_no_modifiers _ _ _ _ _ keys_B plain_B). reflexivity. }
  set (s0 := reset_call _).
  assert (recentKeyCodes s0 = [71]) as H0
      by (unfold s0; simpl; rewrite Hg; reflexivity).
  destruct registry as [-> | ->]; cbn [map fold_left];
    rewrite ?(HA s0 H0), ?(HB s0 H0), ?(HA s0 H0);
    unfold s0; simpl; rewrite Hg; reflexivity.
Qed.

Lemma second_key_runs_chord (d : KeyboardEvent) (t : nat) :
  keyCode d = 68 ->
  eligible enabled d A = true ->
  let st := handler isMac commandsArr enabled d
                    (mkState [71] [] (Some 2000) None t [] 0 []) in
  calls st = [A] /\ validCommands st = [].
Proof.
  intros Hd Hel. unfold handler. rewrite loop_keyed_only.
  destruct suffix_disputes_chord_does_not as [HdA HdB].
  assert (forall st, recentKeyCodes st = [71; 68] ->
            loop_body isMac commandsArr enabled d st (Keyed A) =
            reset_immediate (invoke A (preventDefault st))) as HA.
  { intros st Hst. unfold loop_body. simpl. rewrite Hel, Hst.
    rewrite (matches_no_modifiers _ _ _ _ _ keys_A plain_A).
    change (includes _ _) with true. cbv iota.
    unfold execute. now rewrite HdA. }
  assert (forall st, recentKeyCodes st = [] ->
            loop_body isMac commandsArr enabled d st (Keyed B) = st) as HB0.
  { intros st Hst. apply loop_body_no_match. rewrite Hst.
    rewrite (matches_no_modifiers _ _ _ _ _ keys_B plain_B). reflexivity. }
  assert (forall st, recentKeyCodes st = [71; 68] ->
            let st' := loop_body isMac commandsArr enabled d st (Keyed B) in
            recentKeyCodes st' = [71; 68] /\ calls st' = calls st) as HB1.
  { intros st Hst. unfold loop_body. simpl.
    destruct (eligible enabled d B); [|auto].
    rewrite Hst, (matches_no_modifiers _ _ _ _ _ keys_B plain_B).
    change (includes _ _) with true. cbv iota.
    unfold execute. rewrite HdB. simpl. auto. }
  set (s0 := reset_call _).
  assert (recentKeyCodes s0 = [71; 68]) as H0
      by (unfold s0; simpl; rewrite Hd; reflexivity).
  assert (calls s0 = []) as C0 by reflexivity.
  destruct registry as [-> | ->]; cbn [map fold_left].
  - rewrite (HA s0 H0). rewrite HB0 by reflexivity.
    split; reflexivity.
  - destruct (HB1 s0 H0) as [Hr Hc].
    rewrite (HA _ Hr). simpl. rewrite Hc, C0. split; reflexivity.
Qed.

End ChordAndSuffix.

(** C2, as the code has it.  Take any registry whose chorded commands are
    exactly A, with keys [g, d], and B, with keys [d], in either order
    (plain commands may stand anywhere), neither with a modifier set, A
    being eligible when [d] is pressed.  Pressing [g], then [d] before the
    inactivity timer fires, then letting any time pass, runs A's callback
    once and B's callback never. *)
Theorem chord_wins_over_its_suffix
        (isMac : bool) (commandsArr : list Command) (enabled : bool)
        (A B : KeyedCommand) (g d : KeyboardEvent) (dt1 dt2 : nat) :
  keys A = ["g"%string; "d"%string] ->
  keys B = ["d"%string] ->
  modifiers A = 0 ->
  modifiers B = 0 ->
  oid A <> oid B ->
  keyed_only commandsArr = [A; B] \/ keyed_only commandsArr = [B; A] ->
  keyCode g = 71 ->
  keyCode d = 68 ->
  dt1 < 2000 ->
  eligible enabled d A = true ->
  calls (run isMac commandsArr enabled
             [KeyDown g; Elapse dt1; KeyDown d; Elapse dt2] init) = [A].
Proof.
  intros HkA HkB HmA HmB Hne Hreg Hg Hd Hdt Hel.
  unfold run. cbn [fold_left step].
  rewrite (first_key_matches_nothing isMac commandsArr enabled A B
             HkA HkB HmA HmB Hreg g Hg).
  assert (elapse dt1 (mkState [71] [] (Some 2000) None 0 [] 0 []) =
          mkState [71] [] (Some 2000) None dt1 [] 0 []) as ->.
  { unfold elapse, fire_next. cbn [rankTimer resetTimer now Nat.add].
    replace (2000 <=? dt1) with false
      by (symmetry; apply Nat.leb_gt; exact Hdt).
    reflexivity. }
  destruct (second_key_runs_chord isMac commandsArr enabled A B
              HkA HkB HmA HmB Hne Hreg d dt1 Hd Hel) as [Hc Hv].
  rewrite (elapse_no_candidates dt2 _ Hv). exact Hc.
Qed.

Lemma chord_wins_over_its_suffix_witness :
  calls (run false [Keyed just_d; Plain (mkBase 9 9 None None None None None);
                    Keyed goto_d] true
             [KeyDown (press 71); Elapse 150; KeyDown (press 68); Elapse 200]
             init) = [goto_d].
Proof.
  apply (chord_wins_over_its_suffix
           false _ true goto_d just_d (press 71) (press 68) 150 200);
    try reflexivity.
  - discriminate.
  - right. reflexivity.
  - lia.
Defined.

(** C2, as stated, fails for a registry that merely contains A and B.
    With a third chord [g] registered first, [g] disputes with A and is
    resolved 200 ms after it is pressed, which clears the history; [d],
    pressed 300 ms after [g], then matches B alone and B's callback runs:
    A's never does.  And with no third chord but A disabled, B is the
    only command that can match and its callback runs. *)
Lemma other_chords_preempt_the_chord :
  (let registry := [Keyed just_g; Keyed just_d; Keyed goto_d] in
   let typed := [KeyDown (press 71); Elapse 300; KeyDown (press 68);
                 Elapse 200] in
   let st := run false registry true typed init in
   In (Keyed goto_d) registry /\ In (Keyed just_d) registry /\
   eligible true (press 68) goto_d = true /\
   calls st = [just_g; just_d] /\
   ~ In goto_d (calls st) /\ In just_d (calls st)) /\
  (let registry := [Keyed disabled_goto_d; Keyed just_d] in
   let typed := [KeyDown (press 71); Elapse 100; KeyDown (press 68);
                 Elapse 200] in
   let st := run false registry true typed init in
   calls st = [just_d] /\
   ~ In disabled_goto_d (calls st) /\ In just_d (calls st)).
Proof.
  split.
  - assert (run false [Keyed just_g; Keyed just_d; Keyed goto_d] true
                [KeyDown (press 71); Elapse 300; KeyDown (press 68);
                 Elapse 200] init =
            mkState [] [] None None 500 [just_g; just_d] 2 []) as E
        by (vm_compute; reflexivity).
    cbv zeta. rewrite E. simpl calls.
    split; [right; right; left; reflexivity|].
    split; [right; left; reflexivity|].
    split; [reflexivity|]. split; [reflexivity|].
    split; [|right; left; reflexivity].
    intros [H | [H | []]]; discriminate.
  - assert (run false [Keyed disabled_goto_d; Keyed just_d] true
                [KeyDown (press 71); Elapse 100; KeyDown (press 68);
                 Elapse 200] init =
            mkState [] [] None None 300 [just_d] 1 []) as E
        by (vm_compute; reflexivity).
    cbv zeta. rewrite E. simpl calls.
    split; [reflexivity|]. split; [|left; reflexivity].
    intros [H | []]; discriminate.
Qed.

(** C1.  The claim asks for a silent no-op; the code throws.  Whenever
    the candidate list is empty the action of the resolution timer raises
    a [TypeError], and such a state is reached: with [d] registered before
    [g, d], pressing [g] then [d] arms the resolution timer for [d], runs
    [g, d] at once and clears the candidates, and 200 ms later the timer
    fires over the empty list.  One keydown is enough when [k] is
    registered before ctrl+[k] and ctrl+[k] is pressed. *)
Theorem resolution_fire_on_empty_candidates_throws :
  (forall st,
     rankAndExecute_action (set_validCommands [] st) =
     Throw TypeError (set_validCommands [] st)) /\
  (let st := run false [Keyed just_d; Keyed goto_d] true
                 [KeyDown (press 71); Elapse 100; KeyDown (press 68)] init in
   validCommands st = [] /\ rankTimer st = Some 300 /\
   calls st = [goto_d] /\
   uncaught st = [] /\ uncaught (elapse 200 st) = [TypeError]) /\
  (let st := run false [Keyed just_k; Keyed ctrl_k] true
                 [KeyDown (mkEvent 75 false true false false "BODY")] init in
   validCommands st = [] /\ rankTimer st = Some 200 /\
   calls st = [ctrl_k] /\
   uncaught st = [] /\ uncaught (elapse 200 st) = [TypeError]).
Proof.
  split; [|split].
  - intros st. reflexivity.
  - vm_compute. repeat split; reflexivity.
  - vm_compute. repeat split; reflexivity.
Qed.

(* ================================================================== *)
(** ** The handler store *)
(* ================================================================== *)

Lemma in_sync_update_commandMap (f : Map (list Command) -> Map (list Command))
      (w : World) :
  in_sync (update_commandMap f w).
Proof. split; reflexivity. Qed.

Lemma in_sync_update_disabledMap (f : Map bool -> Map bool) (w : World) :
  in_sync w -> in_sync (update_disabledMap f w).
Proof.
  intros [Hc He]. unfold update_disabledMap.
  destruct (Bool.eqb (commandsEnabled (f (disabledMap w)))
                     (commandsEnabled (disabledMap w))) eqn:E.
  - apply Bool.eqb_prop in E. split; simpl; congruence.
  - split; reflexivity.
Qed.

Lemma in_sync_step (isMac : bool) (w : World) (e : Event) :
  in_sync w -> in_sync (world_step isMac w e).
Proof.
  intros H. destruct e as [[u l|u|u b|u]|actions]; simpl.
  - apply in_sync_update_commandMap.
  - apply in_sync_update_commandMap.
  - apply in_sync_update_disabledMap; exact H.
  - apply in_sync_update_disabledMap; exact H.
  - exact H.
Qed.

Lemma in_sync_run (isMac : bool) (es : list Event) (w : World) :
  in_sync w -> in_sync (world_run isMac es w).
Proof.
  revert w. induction es as [|e es IH]; intros w H; simpl; [exact H|].
  apply IH. apply in_sync_step. exact H.
Qed.

Lemma handler_invokes_snapshot_only (isMac : bool) (h : Handler)
      (actions : list Action) (c : KeyedCommand) :
  Invoked_only (fun k => In (Keyed k) (h_commandsArr h)) (h_state h) ->
  In c (calls (h_state (handler_run isMac actions h))) ->
  In (Keyed c) (h_commandsArr h).
Proof.
  intros HI Hin. simpl in Hin.
  assert (Invoked_only (fun k => In (Keyed k) (h_commandsArr h))
            (run isMac (h_commandsArr h) (h_enabled h) actions (h_state h)))
    as [_ Hc].
  { apply Inv_run; [|exact HI]. intros event k Hk _. exact Hk. }
  rewrite Forall_forall in Hc. apply Hc. exact Hin.
Qed.

Lemma disabledMap_update_disabledMap (f : Map bool -> Map bool) (w : World) :
  disabledMap (update_disabledMap f w) = f (disabledMap w).
Proof.
  unfold update_disabledMap.
  now destruct (Bool.eqb (commandsEnabled (f (disabledMap w)))
                         (commandsEnabled (disabledMap w))).
Qed.

Lemma rebuilds_iff (op : StoreOp) (w : World) :
  rebuilds op w = true <->
  touches_commandMap op = true \/
  commandsEnabled (disabledMap (apply_op op w)) <>
  commandsEnabled (disabledMap w).
Proof.
  unfold rebuilds. rewrite orb_true_iff, negb_true_iff.
  split; intros [H | H]; auto; right.
  - intros E. rewrite E, Bool.eqb_reflx in H. discriminate.
  - destruct (Bool.eqb _ _) eqn:E; [|reflexivity].
    apply Bool.eqb_prop in E. contradiction.
Qed.

(** A store update that gives the handler store a new value puts a fresh
    closure in place and sets the replaced one aside. *)
Lemma apply_op_rebuilds (op : StoreOp) (w : World) :
  rebuilds op w = true ->
  keyDownHandler (apply_op op w) =
  commandCenterKeyDownHandler
    (commandMap (apply_op op w))
    (commandsEnabled (disabledMap (apply_op op w))) /\
  retired (apply_op op w) = retired w ++ [keyDownHandler w].
Proof.
  unfold rebuilds. destruct op as [u l|u|u b|u]; simpl;
    try (intros _; split; reflexivity);
    rewrite disabledMap_update_disabledMap; unfold update_disabledMap;
    destruct (Bool.eqb _ _); simpl; try discriminate;
    intros _; split; reflexivity.
Qed.

Lemma apply_op_keeps (op : StoreOp) (w : World) :
  rebuilds op w = false ->
  keyDownHandler (apply_op op w) = keyDownHandler w /\
  retired (apply_op op w) = retired w.
Proof.
  unfold rebuilds. destruct op as [u l|u|u b|u]; simpl; try discriminate;
    rewrite disabledMap_update_disabledMap; unfold update_disabledMap;
    destruct (Bool.eqb _ _); simpl; try discriminate;
    intros _; split; reflexivity.
Qed.

Lemma run_app (isMac : bool) (commandsArr : list Command) (enabled : bool)
      (a b : list Action) (st : State) :
  run isMac commandsArr enabled (a ++ b) st =
  run isMac commandsArr enabled b (run isMac commandsArr enabled a st).
Proof. unfold run. apply fold_left_app. Qed.

(** The state of the handler in place is what the keys typed since it was
    built make of the initial state. *)
Lemma typed_since_rebuild_state (isMac : bool) (es : list Event) :
  forall (w : World) (typed : list Action),
    h_state (keyDownHandler w) =
    run isMac (h_commandsArr (keyDownHandler w))
        (h_enabled (keyDownHandler w)) typed init ->
    let w' := world_run isMac es w in
    h_state (keyDownHandler w') =
    run isMac (h_commandsArr (keyDownHandler w'))
        (h_enabled (keyDownHandler w'))
        (typed_since_rebuild isMac w es typed) init.
Proof.
  induction es as [|e es IH]; intros w typed H; simpl; [exact H|].
  destruct e as [op|actions].
  - apply IH. simpl. destruct (rebuilds op w) eqn:R.
    + destruct (apply_op_rebuilds op w R) as [-> _]. reflexivity.
    + destruct (apply_op_keeps op w R) as [-> _]. exact H.
  - apply IH. simpl. rewrite run_app, <- H. reflexivity.
Qed.

Lemma retired_run_snapshot (actions : list Action) (h : Handler) :
  h_commandsArr (retired_run actions h) = h_commandsArr h /\
  h_enabled (retired_run actions h) = h_enabled h.
Proof.
  unfold retired_run. revert h.
  induction actions as [|a actions IH]; intros h; simpl; [auto|].
  destruct (IH (retired_step h a)) as [-> ->]. now destruct a.
Qed.

Lemma retired_run_within_snapshot (actions : list Action) (h : Handler) :
  within_snapshot h -> within_snapshot (retired_run actions h).
Proof.
  unfold retired_run. revert h.
  induction actions as [|a actions IH]; intros h H; simpl; [exact H|].
  apply IH. destruct a as [event|dt]; [exact H|].
  unfold within_snapshot. simpl. apply Inv_elapse. exact H.
Qed.

Lemma handler_run_within_snapshot (isMac : bool) (actions : list Action)
      (h : Handler) :
  within_snapshot h -> within_snapshot (handler_run isMac actions h).
Proof.
  intros H. unfold within_snapshot. simpl.
  apply Inv_run; [|exact H]. intros event k Hk _. exact Hk.
Qed.

Lemma within_snapshot_step (isMac : bool) (w : World) (e : Event) :
  (forall h, h = keyDownHandler w \/ In h (retired w) -> within_snapshot h) ->
  forall h,
    h = keyDownHandler (world_step isMac w e) \/
    In h (retired (world_step isMac w e)) ->
    within_snapshot h.
Proof.
  intros H h Hh. destruct e as [op|actions]; simpl in Hh.
  - destruct (rebuilds op w) eqn:R.
    + destruct (apply_op_rebuilds op w R) as [E1 E2].
      rewrite E1, E2 in Hh. destruct Hh as [-> | Hin].
      * split; constructor.
      * apply in_app_or in Hin. destruct Hin as [Hin | [<- | []]]; auto.
    + destruct (apply_op_keeps op w R) as [E1 E2].
      rewrite E1, E2 in Hh. auto.
  - destruct Hh as [-> | Hin].
    + apply handler_run_within_snapshot. auto.
    + apply in_map_iff in Hin. destruct Hin as [h0 [<- Hin]].
      apply retired_run_within_snapshot. auto.
Qed.

Lemma within_snapshot_run (isMac : bool) (es : list Event) (w : World) :
  (forall h, h = keyDownHandler w \/ In h (retired w) -> within_snapshot h) ->
  forall h,
    h = keyDownHandler (world_run isMac es w) \/
    In h (retired (world_run isMac es w)) ->
    within_snapshot h.
Proof.
  revert w. induction es as [|e es IH]; intros w H; simpl; [exact H|].
  apply IH. apply within_snapshot_step. exact H.
Qed.

Lemma retired_snapshots_step (isMac : bool) (w : World) (e : Event) :
  exists later,
    map h_commandsArr (retired (world_step isMac w e)) =
    map h_commandsArr (retired w) ++ later.
Proof.
  destruct e as [op|actions]; simpl.
  - destruct (rebuilds op w) eqn:R.
    + destruct (apply_op_rebuilds op w R) as [_ ->].
      exists [h_commandsArr (keyDownHandler w)]. now rewrite map_app.
    + destruct (apply_op_keeps op w R) as [_ ->].
      exists []. now rewrite app_nil_r.
  - exists []. rewrite app_nil_r, map_map. apply map_ext.
    intros h. apply retired_run_snapshot.
Qed.

(** C10, as the code has it.  The handler store gets a new value exactly
    when the command map is updated or the global-enabled flag changes.
    The new value starts from the initial state (no remembered key, no
    candidate, no timer) and treats the keys it then receives against the
    flattened view and the flag of that moment; so at any time the state
    of the handler in place is what the keys typed since it was built make
    of the initial state, against the stores as they are: nothing typed
    before a registration, a release or a change of the flag is carried
    into the handler in place.  The replaced closure is set aside as it
    was, its snapshot never changes afterwards, and every closure, in
    place or replaced, has only ever held and invoked commands of its own
    snapshot. *)
Theorem rebuilt_handler_starts_afresh (isMac : bool) (es : list Event) :
  let w := world_run isMac es world0 in
  h_state (keyDownHandler w) =
  run isMac (commands (commandMap w)) (commandsEnabled (disabledMap w))
      (typed_since_rebuild isMac world0 es []) init /\
  (forall op,
     rebuilds op w = true <->
     touches_commandMap op = true \/
     commandsEnabled (disabledMap (apply_op op w)) <>
     commandsEnabled (disabledMap w)) /\
  (forall op,
     rebuilds op w = true ->
     h_state (keyDownHandler (apply_op op w)) = init /\
     retired (apply_op op w) = retired w ++ [keyDownHandler w] /\
     forall actions,
       h_state (keyDownHandler
                  (world_step isMac (apply_op op w) (Keyboard actions))) =
       run isMac (commands (commandMap (apply_op op w)))
           (commandsEnabled (disabledMap (apply_op op w))) actions init) /\
  (forall op,
     rebuilds op w = false ->
     keyDownHandler (apply_op op w) = keyDownHandler w) /\
  (forall h, h = keyDownHandler w \/ In h (retired w) ->
             Forall (fun c => In (Keyed c) (h_commandsArr h))
                    (validCommands (h_state h)) /\
             Forall (fun c => In (Keyed c) (h_commandsArr h))
                    (calls (h_state h))) /\
  (forall e, exists later,
     map h_commandsArr (retired (world_step isMac w e)) =
     map h_commandsArr (retired w) ++ later).
Proof.
  intros w.
  pose proof (in_sync_run isMac es world0 (conj eq_refl eq_refl)) as [Sc Se].
  fold w in Sc, Se.
  split; [|split; [|split; [|split; [|split]]]].
  - rewrite <- Sc, <- Se.
    apply (typed_since_rebuild_state isMac es world0 []). reflexivity.
  - intros op. apply rebuilds_iff.
  - intros op R. destruct (apply_op_rebuilds op w R) as [E1 E2].
    split; [rewrite E1; reflexivity|]. split; [exact E2|].
    intros actions. simpl. rewrite E1. reflexivity.
  - intros op R. apply (apply_op_keeps op w R).
  - intros h Hh.
    apply (within_snapshot_run isMac es world0); [|exact Hh].
    intros h0 [-> | []]. split; constructor.
  - intros e. apply retired_snapshots_step.
Qed.

(** C10, as stated, fails: a chord in progress does outlive a release.
    With two commands on [k] registered, [k] is pressed and both become
    candidates; the registrant is then released, which rebuilds the
    handler over an empty view; the replaced closure still holds the key,
    the two candidates and its armed timer, and 200 ms later that timer
    runs the callback of a command that is no longer registered. *)
Lemma pending_chord_outlives_release :
  let w := world_run false
             [Store (RegisterSet "a" [Keyed just_k; Keyed other_k]);
              Keyboard [KeyDown (press 75)];
              Store (RegisterRelease "a")] world0 in
  let w' := world_step false w (Keyboard [Elapse 200]) in
  commands (commandMap w) = [] /\
  h_state (keyDownHandler w) = init /\
  map (fun h => recentKeyCodes (h_state h)) (retired w) = [[]; [75]] /\
  map (fun h => validCommands (h_state h)) (retired w) =
  [[]; [just_k; other_k]] /\
  map (fun h => rankTimer (h_state h)) (retired w) = [None; Some 200] /\
  map (fun h => calls (h_state h)) (retired w) = [[]; []] /\
  map (fun h => calls (h_state h)) (retired w') = [[]; [just_k]].
Proof. vm_compute. repeat split; reflexivity. Qed.

(* ================================================================== *)
(** ** Further properties: the maps behind the stores *)
(* ================================================================== *)

From Stdlib Require Import Permutation.
Import Grouping Invariants.

Lemma Map_get_set_same {V : Type} (m : Map V) (k : string) (v : V) :
  Map_get (Map_set k v m) k = Some v.
Proof.
  induction m as [|[k' v'] m IH]; simpl.
  - now rewrite String.eqb_refl.
  - destruct (String.eqb k' k) eqn:E; simpl; rewrite E; [reflexivity|exact IH].
Qed.



Lemma Map_get_None_keys {V : Type} (m : Map V) (k : string) :
  Map_get m k = None <-> ~ In k (Map_keys m).
Proof.
  unfold Map_keys. induction m as [|[k' v'] m IH]; simpl.
  - tauto.
  - destruct (String.eqb_spec k' k) as [->|Hne].
    + split; [discriminate | intros H; exfalso; apply H; left; reflexivity].
    + rewrite IH. tauto.
Qed.

Lemma Map_keys_set {V : Type} (m : Map V) (k : string) (v : V) :
  Map_keys (Map_set k v m) =
  if Map_has m k then Map_keys m else Map_keys m ++ [k].
Proof.
  unfold Map_keys, Map_has. induction m as [|[k' v'] m IH]; simpl;
    [reflexivity|].
  destruct (String.eqb k' k) eqn:E; simpl; [reflexivity|].
  rewrite IH. now destruct (Map_get m k).
Qed.

Lemma unique_keys_set {V : Type} (m : Map V) (k : string) (v : V) :
  unique_keys m -> unique_keys (Map_set k v m).
Proof.
  unfold unique_keys. intros H. rewrite Map_keys_set. unfold Map_has.
  destruct (Map_get m k) eqn:E; [exact H|].
  apply Map_get_None_keys in E.
  apply NoDup_rev in H. rewrite <- (rev_involutive (Map_keys m ++ [k])).
  apply NoDup_rev. rewrite rev_app_distr. simpl. constructor; [|exact H].
  intros Hin. apply E. apply in_rev. exact Hin.
Qed.

Lemma unique_keys_delete {V : Type} (m : Map V) (k : string) :
  unique_keys m -> unique_keys (Map_delete k m).
Proof.
  unfold unique_keys, Map_keys, Map_delete. intros H.
  induction m as [|[k' v'] m IH]; simpl; [constructor|].
  simpl in H. inversion H as [|x l Hx Hl]; subst.
  destruct (String.eqb k' k); simpl; [auto|].
  constructor; [|auto].
  intros Hin. apply Hx. apply in_map_iff in Hin.
  destruct Hin as [e [He Hin]]. apply filter_In in Hin.
  apply in_map_iff. exists e. tauto.
Qed.


(** X2.  A registrant that hands in a new list under its identifier
    replaces its earlier list where it stands: the registrants before and
    after it keep their places in the flattened view, and the identifier
    reads as the new list. *)
Theorem reregistration_replaces_in_place
        (before after : Map (list Command)) (uuid : string)
        (old new : list Command) :
  Map_get before uuid = None ->
  let m := register_set uuid new (before ++ (uuid, old) :: after) in
  m = before ++ (uuid, new) :: after /\
  commands m = commands before ++ new ++ commands after /\
  Map_get m uuid = Some new.
Proof.
  intros Hb m.
  assert (m = before ++ (uuid, new) :: after) as E.
  { unfold m, register_set. clear m.
    induction before as [|[k v] before IH]; simpl.
    - now rewrite String.eqb_refl.
    - simpl in Hb. destruct (String.eqb k uuid); [discriminate|].
      now rewrite (IH Hb). }
  split; [exact E|]. split.
  - rewrite E, commands_app. reflexivity.
  - unfold m, register_set. apply Map_get_set_same.
Qed.

Lemma reregistration_replaces_in_place_witness :
  commands
    (register_set "b" [Keyed just_k]
       ([("a"%string, [Keyed goto_d])]
          ++ ("b"%string, [Keyed just_d; Keyed just_l])
          :: [("c"%string, [Keyed ctrl_k])])) =
  [Keyed goto_d] ++ [Keyed just_k] ++ [Keyed ctrl_k].
Proof.
  apply (reregistration_replaces_in_place
           [("a"%string, [Keyed goto_d])] [("c"%string, [Keyed ctrl_k])]
           "b" [Keyed just_d; Keyed just_l] [Keyed just_k] eq_refl).
Defined.

Lemma world_unique_keys_step (isMac : bool) (w : World) (e : Event) :
  world_unique_keys w -> world_unique_keys (world_step isMac w e).
Proof.
  intros [Hc Hd]. destruct e as [[u l|u|u b|u]|actions]; simpl;
    unfold update_commandMap, update_disabledMap, world_unique_keys;
    try match goal with
        | |- context [if ?b then _ else _] => destruct b
        end;
    simpl; split;
    try assumption;
    first [ apply unique_keys_set; assumption
          | apply unique_keys_delete; assumption ].
Qed.

(** X3.  Whatever is registered, released, enabled or disabled, and
    whatever is typed in between, starting from the empty stores, no
    identifier ever occurs twice in the command map or in the availability
    map. *)
Theorem stores_keep_unique_keys (isMac : bool) (es : list Event) :
  unique_keys (commandMap (world_run isMac es world0)) /\
  unique_keys (disabledMap (world_run isMac es world0)).
Proof.
  assert (forall w, world_unique_keys w ->
                    world_unique_keys (world_run isMac es w)) as H.
  { induction es as [|e es IH]; intros w Hw; simpl; [exact Hw|].
    apply IH. apply world_unique_keys_step. exact Hw. }
  apply (H world0). split; constructor.
Qed.

(** X4.  With unique identifiers, the global-enabled flag after a
    registrant sets its flag is: that flag is false, and the flags of all
    other registrants allow it.  So one registrant holding [true] switches
    the command center off whatever the others hold. *)
Theorem disable_set_composes (dm : Map bool) (uuid : string) (flag : bool) :
  unique_keys dm ->
  commandsEnabled (disable_set uuid flag dm) =
  negb flag && commandsEnabled (disable_release uuid dm).
Proof.
  unfold disable_set, disable_release, commandsEnabled, Map_values.
  induction dm as [|[k v] dm IH]; intros H; simpl.
  - reflexivity.
  - unfold unique_keys, Map_keys in H. simpl in H.
    inversion H as [|x l Hx Hl]; subst.
    destruct (String.eqb_spec k uuid) as [->|Hne]; simpl.
    + assert (Map_get dm uuid = None) as Hg
          by (apply Map_get_None_keys; exact Hx).
      fold (Map_delete uuid dm). now rewrite (Map_delete_fresh dm uuid Hg).
    + rewrite (IH Hl). fold (Map_delete uuid dm).
      destruct v, flag; simpl; reflexivity.
Qed.

Lemma disable_set_composes_witness :
  commandsEnabled
    (disable_set "b" false [("a"%string, false); ("b"%string, true)]) =
  negb false
  && commandsEnabled
       (disable_release "b" [("a"%string, false); ("b"%string, true)]).
Proof.
  apply (disable_set_composes [("a"%string, false); ("b"%string, true)]
                              "b" false).
  unfold unique_keys. simpl. repeat constructor; simpl; intuition discriminate.
Defined.

(* ================================================================== *)
(** ** Further properties: the grouped view *)
(* ================================================================== *)

Lemma grouped_step_key (res : Map (list Command)) (command : Command) :
  grouped_step res command =
  Map_set (group_key command)
          (get_or_empty res (group_key command) ++ [command]) res.
Proof.
  unfold grouped_step, group_key.
  now destruct (group (command_base command)).
Qed.

Lemma grouped_lookup_from (cs : list Command) (acc : Map (list Command))
      (key : string) :
  Map_get (fold_left grouped_step cs acc) key =
  match Map_get acc key,
        filter (fun c => String.eqb (group_key c) key) cs with
  | Some l, f => Some (l ++ f)
  | None, [] => None
  | None, f => Some f
  end.
Proof.
  revert acc. induction cs as [|c cs IH]; intros acc; simpl.
  - destruct (Map_get acc key); [now rewrite app_nil_r | reflexivity].
  - rewrite IH, grouped_step_key. unfold get_or_empty.
    destruct (String.eqb_spec (group_key c) key) as [E|Hne].
    + rewrite E, Map_get_set_same.
      destruct (Map_get acc key) as [l|]; simpl.
      * now rewrite <- app_assoc.
      * reflexivity.
    + rewrite Map_get_set_other by (intros E; apply Hne; now symmetry).
      reflexivity.
Qed.

(** X5.  The grouped view files every command under its group name,
    [ungrouped] when it has none: looking a name up gives the commands of
    that group in the order of the flattened view, and a name no command
    carries is absent rather than mapped to an empty list. *)
Theorem groupedCommands_lookup (cs : list Command) (key : string) :
  Map_get (groupedCommands cs) key =
  match filter (fun c => String.eqb (group_key c) key) cs with
  | [] => None
  | l => Some l
  end.
Proof.
  unfold groupedCommands. rewrite grouped_lookup_from. reflexivity.
Qed.

Lemma grouped_step_values (res : Map (list Command)) (key : string)
      (c : Command) :
  Permutation
    (List.concat
       (Map_values (Map_set key (get_or_empty res key ++ [c]) res)))
    (c :: List.concat (Map_values res)).
Proof.
  unfold Map_values, get_or_empty.
  induction res as [|[k v] res IH]; simpl.
  - constructor. constructor.
  - destruct (String.eqb k key) eqn:E; simpl.
    + rewrite <- app_assoc. simpl.
      apply Permutation_sym. apply Permutation_middle.
    + apply Permutation_trans
        with (v ++ c :: List.concat (map snd res)).
      * apply Permutation_app_head. exact IH.
      * apply Permutation_sym. apply Permutation_middle.
Qed.

Lemma grouped_values_from (cs : list Command) (acc : Map (list Command)) :
  Permutation (List.concat (Map_values (fold_left grouped_step cs acc)))
              (List.concat (Map_values acc) ++ cs).
Proof.
  revert acc. induction cs as [|c cs IH]; intros acc; simpl.
  - rewrite app_nil_r. apply Permutation_refl.
  - eapply Permutation_trans; [apply IH|].
    rewrite grouped_step_key.
    eapply Permutation_trans;
      [apply Permutation_app_tail; apply grouped_step_values|].
    simpl. apply Permutation_middle.
Qed.

Lemma grouped_unique_from (cs : list Command) (acc : Map (list Command)) :
  unique_keys acc -> unique_keys (fold_left grouped_step cs acc).
Proof.
  revert acc. induction cs as [|c cs IH]; intros acc H; simpl; [exact H|].
  apply IH. rewrite grouped_step_key. apply unique_keys_set. exact H.
Qed.

(** X6.  The grouped view loses and invents nothing: its lists, put end to
    end, hold exactly the commands of the flattened view, each as often as
    it occurs there, and no group name occurs twice among its keys. *)
Theorem groupedCommands_partitions (cs : list Command) :
  Permutation (List.concat (Map_values (groupedCommands cs))) cs /\
  unique_keys (groupedCommands cs).
Proof.
  split.
  - apply (grouped_values_from cs Map_empty).
  - apply grouped_unique_from. constructor.
Qed.

(* ================================================================== *)
(** ** Further properties: ranking and disputes *)
(* ================================================================== *)

Lemma filter_head_split {A : Type} (p : A -> bool) (l : list A)
      (c : A) (rest : list A) :
  filter p l = c :: rest ->
  exists l1 l2,
    l = l1 ++ c :: l2 /\ (forall d, In d l1 -> p d = false) /\ p c = true.
Proof.
  induction l as [|a l IH]; simpl; [discriminate|].
  destruct (p a) eqn:E.
  - intros H. injection H as -> _. exists [], l.
    repeat split; [intros d [] | exact E].
  - intros H. destruct (IH H) as [l1 [l2 [-> [H1 Hc]]]].
    exists (a :: l1), l2. repeat split; [|exact Hc].
    intros d [<- | Hd]; auto.
Qed.

Lemma filter_twice {A : Type} (p q : A -> bool) (l : list A) :
  filter q (filter p l) = filter (fun x => p x && q x) l.
Proof.
  induction l as [|a l IH]; simpl; [reflexivity|].
  destruct (p a); simpl; [|exact IH].
  destruct (q a); now rewrite IH.
Qed.

Lemma filter_all {A : Type} (p : A -> bool) (l : list A) :
  (forall a, In a l -> p a = true) -> filter p l = l.
Proof.
  induction l as [|a l IH]; intros H; simpl; [reflexivity|].
  rewrite (H a (or_introl eq_refl)), IH; [reflexivity|].
  intros b Hb. apply H. right. exact Hb.
Qed.

Lemma maximal_spec (f : KeyedCommand -> nat) (l : list KeyedCommand)
      (c : KeyedCommand) :
  In c (maximal f l) <-> In c l /\ forall d, In d l -> f d <= f c.
Proof.
  unfold maximal. rewrite filter_In, forallb_forall. split.
  - intros [Hin H]. split; [exact Hin|].
    intros d Hd. apply Nat.leb_le. auto.
  - intros [Hin H]. split; [exact Hin|].
    intros d Hd. apply Nat.leb_le. auto.
Qed.

(** X7.  The command the selection returns is a best candidate and the
    first of the best: no candidate has a higher rank, no candidate of the
    same rank has more modifiers, and no candidate before it in the list
    has both the same rank and the same number of modifiers. *)
Theorem winner_is_first_among_best
        (candidates : list KeyedCommand) (c : KeyedCommand) :
  getHighestPriorityCommand candidates = Some c ->
  exists l1 l2,
    candidates = l1 ++ c :: l2 /\
    (forall d, In d candidates -> getCommandRank d <= getCommandRank c) /\
    (forall d, In d candidates -> getCommandRank d = getCommandRank c ->
               modifiers d <= modifiers c) /\
    (forall d, In d l1 ->
               ~ (getCommandRank d = getCommandRank c /\
                  modifiers d = modifiers c)).
Proof.
  destruct candidates as [|a [|b l]].
  - discriminate.
  - simpl. intros H. injection H as ->. exists [], [].
    repeat split.
    + intros d [<- | []]. apply Nat.le_refl.
    + intros d [<- | []] _. apply Nat.le_refl.
    + intros d [].
  - rewrite getHighestPriorityCommand_many.
    set (L := a :: b :: l).
    set (p1 := fun c0 : KeyedCommand =>
                 forallb (fun d => getCommandRank d <=? getCommandRank c0) L).
    assert (forall x, In x L -> p1 x = true ->
                      forall d, In d L -> getCommandRank d <= getCommandRank x)
      as Hp1.
    { intros x _ Hx d Hd. unfold p1 in Hx. rewrite forallb_forall in Hx.
      apply Nat.leb_le. auto. }
    assert (forall x d, getCommandRank d = getCommandRank x ->
                        p1 x = true -> p1 d = true) as Hp1eq.
    { intros x d E Hx. unfold p1 in *. now rewrite E. }
    destruct (maximal getCommandRank L) as [|x [|y top]] eqn:Etop.
    + discriminate.
    + intros H. injection H as ->.
      destruct (filter_head_split p1 L c [] Etop) as [l1 [l2 [EL [H1 Hc]]]].
      assert (In c L) as HcL by (rewrite EL; apply in_elt).
      exists l1, l2. split; [exact EL|]. repeat split.
      * exact (Hp1 c HcL Hc).
      * intros d Hd E.
        assert (In d (maximal getCommandRank L)) as Hd'
            by (apply filter_In; split; [exact Hd | exact (Hp1eq c d E Hc)]).
        rewrite Etop in Hd'. destruct Hd' as [<- | []]. apply Nat.le_refl.
      * intros d Hd [E _]. specialize (H1 d Hd).
        rewrite (Hp1eq c d E Hc) in H1. discriminate.
    + set (T := x :: y :: top) in *.
      set (p2 := fun c0 : KeyedCommand =>
                   forallb (fun d => modifiers d <=? modifiers c0) T).
      destruct (maximal modifiers T) as [|z rest] eqn:Emod; [discriminate|].
      simpl. intros H. injection H as ->.
      unfold maximal in Emod. fold p2 in Emod. rewrite <- Etop in Emod.
      unfold maximal in Emod. fold p1 in Emod. rewrite filter_twice in Emod.
      destruct (filter_head_split _ L c rest Emod) as [l1 [l2 [EL [H1 Hc]]]].
      apply andb_true_iff in Hc. destruct Hc as [Hc1 Hc2].
      assert (In c L) as HcL by (rewrite EL; apply in_elt).
      exists l1, l2. split; [exact EL|]. repeat split.
      * exact (Hp1 c HcL Hc1).
      * intros d Hd E.
        assert (In d T) as Hd'.
        { rewrite <- Etop. apply filter_In.
          split; [exact Hd | exact (Hp1eq c d E Hc1)]. }
        unfold p2 in Hc2. rewrite forallb_forall in Hc2.
        apply Nat.leb_le. auto.
      * intros d Hd [E E']. specialize (H1 d Hd). simpl in H1.
        rewrite (Hp1eq c d E Hc1) in H1. unfold p2 in H1, Hc2.
        rewrite E', Hc2 in H1. discriminate.
Qed.

Lemma winner_is_first_among_best_witness :
  exists l1 l2,
    [just_k; ctrl_k; other_k] = l1 ++ ctrl_k :: l2 /\
    (forall d, In d [just_k; ctrl_k; other_k] ->
               getCommandRank d <= getCommandRank ctrl_k) /\
    (forall d, In d [just_k; ctrl_k; other_k] ->
               getCommandRank d = getCommandRank ctrl_k ->
               modifiers d <= modifiers ctrl_k) /\
    (forall d, In d l1 ->
               ~ (getCommandRank d = getCommandRank ctrl_k /\
                  modifiers d = modifiers ctrl_k)).
Proof.
  apply (winner_is_first_among_best [just_k; ctrl_k; other_k] ctrl_k).
  reflexivity.
Defined.

Lemma maximal_same_value (f : KeyedCommand -> nat) (l : list KeyedCommand)
      (c d : KeyedCommand) :
  In c (maximal f l) -> In d (maximal f l) -> f c = f d.
Proof.
  rewrite !maximal_spec. intros [Hc Hc'] [Hd Hd'].
  apply Nat.le_antisymm; auto.
Qed.

(** X8.  When every candidate has fewer than ten keys, candidates of the
    same rank have the same number of modifiers, so the second tie-break
    decides nothing: the selection returns the first candidate of maximal
    rank. *)
Theorem modifier_tie_break_is_idle_below_ten_keys
        (candidates : list KeyedCommand) :
  (forall c, In c candidates -> List.length (keys c) < 10) ->
  getHighestPriorityCommand candidates =
  hd_error (maximal getCommandRank candidates).
Proof.
  intros Hk. destruct candidates as [|a [|b l]].
  - reflexivity.
  - unfold maximal. simpl. now rewrite Nat.leb_refl.
  - rewrite getHighestPriorityCommand_many.
    set (L := a :: b :: l) in *.
    destruct (maximal getCommandRank L) as [|x [|y top]] eqn:Etop;
      [reflexivity | reflexivity |].
    set (T := x :: y :: top) in *.
    assert (maximal modifiers T = T) as ->; [|reflexivity].
    unfold maximal. apply filter_all. intros c Hc.
    apply forallb_forall. intros d Hd. apply Nat.leb_le.
    rewrite <- Etop in Hc, Hd.
    pose proof (maximal_same_value getCommandRank L c d Hc Hd) as E.
    apply maximal_In in Hc. apply maximal_In in Hd.
    apply Hk in Hc. apply Hk in Hd.
    unfold getCommandRank in E. lia.
Qed.

Lemma modifier_tie_break_is_idle_below_ten_keys_witness :
  getHighestPriorityCommand [just_k; ctrl_k; other_k] =
  hd_error (maximal getCommandRank [just_k; ctrl_k; other_k]).
Proof.
  apply (modifier_tie_break_is_idle_below_ten_keys
           [just_k; ctrl_k; other_k]).
  intros c [<- | [<- | [<- | []]]]; vm_compute; lia.
Defined.

(** X9.  A command that outranks every other object of the registry
    disputes with none of them: when it matches, its callback runs at once
    and the key history and the candidates are cleared, without waiting
    for the resolution timer. *)
Theorem top_ranked_command_runs_at_once
        (commandsArr : list Command) (command : KeyedCommand) :
  (forall other, In (Keyed other) commandsArr -> oid other <> oid command ->
                 getCommandRank other < getCommandRank command) ->
  hasDisputing command commandsArr = false /\
  forall st, execute commandsArr command st =
             reset_immediate (invoke command st).
Proof.
  intros Htop.
  assert (hasDisputing command commandsArr = false) as E.
  { destruct (hasDisputing command commandsArr) eqn:E; [|reflexivity].
    apply hasDisputing_iff in E.
    destruct E as [other [Hin [Hne [_ Hr]]]].
    specialize (Htop other Hin Hne). lia. }
  split; [exact E|]. intros st. unfold execute. now rewrite E.
Qed.

Lemma top_ranked_command_runs_at_once_witness :
  hasDisputing ctrl_k [Keyed just_k; Keyed ctrl_k] = false /\
  forall st, execute [Keyed just_k; Keyed ctrl_k] ctrl_k st =
             reset_immediate (invoke ctrl_k st).
Proof.
  apply (top_ranked_command_runs_at_once [Keyed just_k; Keyed ctrl_k] ctrl_k).
  intros other [H | [H | []]] Hne.
  - injection H as <-. vm_compute. lia.
  - injection H as <-. exfalso. apply Hne. reflexivity.
Defined.

(* ================================================================== *)
(** ** Further properties: timers of the closure *)
(* ================================================================== *)

Lemma no_winner_no_candidates (l : list KeyedCommand) :
  getHighestPriorityCommand l = None -> l = [].
Proof.
  intros H. destruct l as [|a l]; [reflexivity|].
  destruct (getHighestPriorityCommand_defined (a :: l)) as [c E];
    [discriminate | congruence].
Qed.

Lemma fire_rank_shape (st : State) :
  rankTimer (fire_rank st) = None /\
  validCommands (fire_rank st) = [] /\
  now (fire_rank st) = now st /\
  ((resetTimer (fire_rank st) = None /\ recentKeyCodes (fire_rank st) = [])
   \/ (resetTimer (fire_rank st) = resetTimer st /\
       recentKeyCodes (fire_rank st) = recentKeyCodes st)).
Proof.
  unfold fire_rank, rankAndExecute_action. simpl.
  destruct (getHighestPriorityCommand (validCommands st)) eqn:E; simpl.
  - tauto.
  - apply no_winner_no_candidates in E. tauto.
Qed.

Lemma fire_next_wf (t : nat) (st st' : State) :
  timers_wf st -> fire_next t st = Some st' ->
  timers_wf st' /\ now st' = now st /\
  pending_timers st' < pending_timers st.
Proof.
  intros [Hr [Hs [Hrs [Hv Hk]]]] H.
  assert (st' = fire_rank st /\ rankTimer st <> None \/
          st' = fire_reset st /\ resetTimer st <> None) as [[-> Hp]|[-> Hp]].
  { unfold fire_next in H.
    destruct (rankTimer st) as [r|], (resetTimer st) as [s|];
      repeat match type of H with
             | context [if ?b then _ else _] => destruct b
             end;
      inversion H; subst; (left + right); split; congruence. }
  - destruct (fire_rank_shape st) as [E1 [E2 [E3 E4]]].
    unfold timers_wf, pending_timers. rewrite E1, E2, E3.
    destruct (rankTimer st) as [r|]; [|congruence].
    destruct E4 as [[E4 E5]|[E4 E5]]; rewrite E4, E5.
    + repeat split; try congruence; try discriminate.
      all: destruct (resetTimer st); simpl; lia.
    + repeat split; try congruence; try discriminate; auto;
        try (apply Hs; assumption).
      all: destruct (resetTimer st); simpl; lia.
  - unfold timers_wf, pending_timers, fire_reset. simpl.
    destruct (resetTimer st) as [s|]; [|congruence].
    repeat split; try congruence; try discriminate; auto;
      try (apply Hr; assumption).
    all: destruct (rankTimer st); simpl; lia.
Qed.

Lemma fire_next_none (t : nat) (st : State) :
  fire_next t st = None ->
  (forall r, rankTimer st = Some r -> t < r) /\
  (forall s, resetTimer st = Some s -> t < s).
Proof.
  unfold fire_next.
  destruct (rankTimer st) as [r|], (resetTimer st) as [s|];
    repeat match goal with
           | |- context [?a <=? ?b] => destruct (Nat.leb_spec a b)
           end;
    intros HN; try discriminate; split; intros x Hx; inversion Hx; subst;
    lia.
Qed.

(** The state after [dt] ms: still well formed, the clock moved by [dt],
    and whatever is still pending was already pending, with a deadline
    beyond the new time. *)
Lemma elapse_wf (dt : nat) (st : State) :
  timers_wf st ->
  timers_wf (elapse dt st) /\
  now (elapse dt st) = now st + dt /\
  (forall r, rankTimer (elapse dt st) = Some r -> r <= now st + 200) /\
  (forall s, resetTimer (elapse dt st) = Some s -> s <= now st + 2000).
Proof.
  intros Hwf.
  assert (exists st1,
             elapse dt st = set_now (now st + dt) st1 /\
             timers_wf st1 /\ now st1 = now st /\
             (forall r, rankTimer st1 = Some r -> now st + dt < r) /\
             (forall s, resetTimer st1 = Some s -> now st + dt < s))
    as [st1 [-> [H1 [N1 [R1 S1]]]]].
  { unfold elapse.
    destruct (fire_next (now st + dt) st) as [sa|] eqn:Ea.
    - destruct (fire_next_wf _ _ _ Hwf Ea) as [Ha [Na Pa]].
      destruct (fire_next (now st + dt) sa) as [sb|] eqn:Eb.
      + destruct (fire_next_wf _ _ _ Ha Eb) as [Hb [Nb Pb]].
        exists sb. split; [reflexivity|]. split; [exact Hb|].
        split; [congruence|].
        assert (pending_timers sb = 0) as P0.
        { assert (pending_timers st <= 2)
            by (unfold pending_timers;
                destruct (rankTimer st), (resetTimer st); simpl; lia).
          lia. }
        unfold pending_timers in P0.
        split; intros x Hx; rewrite Hx in P0;
          destruct (rankTimer sb), (resetTimer sb); simpl in P0;
          discriminate.
      + destruct (fire_next_none _ _ Eb) as [Rn Sn].
        exists sa. auto.
    - destruct (fire_next_none _ _ Ea) as [Rn Sn].
      exists st. auto. }
  destruct H1 as [Hr [Hs [Hrs [Hv Hk]]]].
  unfold timers_wf. simpl. rewrite N1 in *.
  split; [|split; [reflexivity|split]].
  - split; [|split; [|split; [exact Hrs | split; [exact Hv | exact Hk]]]].
    + intros r Hx. destruct (Hr r Hx). specialize (R1 r Hx). lia.
    + intros s Hx. destruct (Hs s Hx). specialize (S1 s Hx). lia.
  - intros r Hx. destruct (Hr r Hx). lia.
  - intros s Hx. destruct (Hs s Hx). lia.
Qed.

Section TimersInLoop.

Variable isMac : bool.
Variable commandsArr : list Command.
Variable enabled : bool.

Lemma in_loop_body (event : KeyboardEvent) (st : State) (c : Command) :
  timers_in_loop st -> timers_in_loop (loop_body isMac commandsArr enabled event st c).
Proof.
  intros HI. unfold loop_body.
  destruct (isKeyedCommand c) as [command|]; [|exact HI].
  destruct (eligible enabled event command); [|exact HI].
  destruct (matches isMac (recentKeyCodes st) event command); [|exact HI].
  destruct HI as [[Hr [Hs [Hrs [Hv Hk]]]] Hreset].
  unfold execute. destruct (hasDisputing command commandsArr).
  - unfold timers_in_loop, timers_wf, rankAndExecute_call, debounce_call. simpl.
    split; [|exact Hreset].
    split; [|split; [exact Hs|split; [|split; [discriminate | exact Hk]]]].
    + intros r Hx. inversion Hx; subst. lia.
    + intros r s Hx Hy. inversion Hx; subst.
      destruct Hreset as [E|E]; rewrite E in Hy; inversion Hy; subst. lia.
  - unfold timers_in_loop, timers_wf, reset_immediate, debounce_cancel. simpl.
    split; [|left; reflexivity].
    split; [exact Hr|]. repeat split; try discriminate; congruence.
Qed.

Lemma timers_wf_handler (event : KeyboardEvent) (st : State) :
  timers_wf st -> timers_wf (handler isMac commandsArr enabled event st).
Proof.
  intros [Hr [Hs [Hrs [Hv Hk]]]]. unfold handler.
  assert (forall l s0, timers_in_loop s0 ->
            timers_in_loop (fold_left (loop_body isMac commandsArr enabled event)
                               l s0)) as Hloop.
  { induction l as [|c l IH]; intros s0 H0; simpl; [exact H0|].
    apply IH. apply in_loop_body. exact H0. }
  apply Hloop.
  unfold timers_in_loop, timers_wf, reset_call, debounce_call. simpl.
  split; [|right; reflexivity].
  split; [exact Hr|]. split; [|split; [|split; [exact Hv | discriminate]]].
  - intros s Hx. inversion Hx; subst. lia.
  - intros r s Hx Hy. inversion Hy; subst. destruct (Hr r Hx). lia.
Qed.

(** X10.  In every state the closure can reach, a pending timer is due in
    the future and within its delay (200 ms for the resolution, 2000 ms
    for the inactivity timer), the resolution timer is due strictly before
    the inactivity timer, candidates exist only while the resolution timer
    is pending, and keys are remembered only while the inactivity timer
    is pending. *)
Theorem reachable_timers_are_well_formed (actions : list Action) :
  timers_wf (run isMac commandsArr enabled actions init).
Proof.
  assert (forall st, timers_wf st ->
            timers_wf (run isMac commandsArr enabled actions st)) as H.
  { induction actions as [|a actions IH]; intros st Hst; simpl; [exact Hst|].
    apply IH. destruct a as [event|dt]; simpl.
    - apply timers_wf_handler. exact Hst.
    - apply elapse_wf. exact Hst. }
  apply H. unfold timers_wf, init. simpl.
  repeat split; intros; try discriminate; congruence.
Qed.

(** X11.  From any reachable state, 200 ms without a keydown leave no
    candidate and no resolution timer behind, and 2000 ms without a
    keydown leave nothing at all: no remembered key, no candidate, no
    pending timer. *)
Theorem idle_time_clears_the_closure (actions : list Action) (dt : nat) :
  let st := elapse dt (run isMac commandsArr enabled actions init) in
  (200 <= dt -> validCommands st = [] /\ rankTimer st = None) /\
  (2000 <= dt ->
   recentKeyCodes st = [] /\ validCommands st = [] /\
   rankTimer st = None /\ resetTimer st = None).
Proof.
  intros st.
  pose proof (reachable_timers_are_well_formed actions) as Hwf.
  destruct (elapse_wf dt _ Hwf) as [[Hr [Hs [Hrs [Hv Hk]]]] [Hn [Br Bs]]].
  fold st in Hr, Hs, Hrs, Hv, Hk, Hn, Br, Bs.
  assert (200 <= dt -> rankTimer st = None) as R0.
  { intros Hdt. destruct (rankTimer st) as [r|] eqn:E; [|reflexivity].
    destruct (Hr r eq_refl). specialize (Br r eq_refl). lia. }
  assert (2000 <= dt -> resetTimer st = None) as S0.
  { intros Hdt. destruct (resetTimer st) as [s|] eqn:E; [|reflexivity].
    destruct (Hs s eq_refl). specialize (Bs s eq_refl). lia. }
  assert (rankTimer st = None -> validCommands st = []) as V0.
  { intros E. destruct (validCommands st); [reflexivity|].
    exfalso. apply Hv; [discriminate | exact E]. }
  assert (resetTimer st = None -> recentKeyCodes st = []) as K0.
  { intros E. destruct (recentKeyCodes st); [reflexivity|].
    exfalso. apply Hk; [discriminate | exact E]. }
  split.
  - intros Hdt. split; [apply V0|]; apply R0; exact Hdt.
  - intros Hdt. assert (200 <= dt) as Hdt' by lia. auto.
Qed.

End TimersInLoop.

(* ================================================================== *)
(** ** Further properties: matching against the key history *)
(* ================================================================== *)

From Stdlib Require Import DecimalNat DecimalFacts.

Lemma string_app_nil_r (s : string) : (s ++ "")%string = s.
Proof. induction s as [|a s IH]; simpl; [reflexivity | now rewrite IH]. Qed.

Lemma string_app_assoc (a b c : string) :
  ((a ++ b) ++ c)%string = (a ++ b ++ c)%string.
Proof. induction a as [|x a IH]; simpl; [reflexivity | now rewrite IH]. Qed.

Lemma join_empty_cons (x : string) (xs : list string) :
  join "" (x :: xs) = (x ++ join "" xs)%string.
Proof.
  unfold join. destruct xs as [|y xs]; simpl.
  - now rewrite string_app_nil_r.
  - reflexivity.
Qed.

Lemma join_empty_app (a b : list string) :
  join "" (a ++ b) = (join "" a ++ join "" b)%string.
Proof.
  induction a as [|x a IH]; [reflexivity|].
  change ((x :: a) ++ b) with (x :: (a ++ b)).
  now rewrite !join_empty_cons, IH, string_app_assoc.
Qed.

Lemma substring_of_refl (s : string) : substring_of s s.
Proof. exists ""%string, ""%string. simpl. now rewrite string_app_nil_r. Qed.

Lemma substring_of_extend (sub s before after : string) :
  substring_of sub s -> substring_of sub (before ++ s ++ after)%string.
Proof.
  intros [pre [post ->]].
  exists (before ++ pre)%string, (post ++ after)%string.
  now rewrite !string_app_assoc.
Qed.

Lemma number_toString_nonempty (n : nat) : number_toString n <> ""%string.
Proof.
  unfold number_toString.
  assert (Nat.to_uint n <> Decimal.Nil) as Hnil.
  { pose proof (DecimalNat.Unsigned.to_of (Nat.to_uint n)) as H.
    rewrite DecimalNat.Unsigned.of_to in H.
    intros E. apply (DecimalFacts.unorm_nonnil (Nat.to_uint n)).
    rewrite <- H. exact E. }
  destruct (Nat.to_uint n); [congruence | | | | | | | | | |];
    simpl; discriminate.
Qed.

Lemma code_toString_nonempty (x : option nat) : code_toString x <> ""%string.
Proof.
  destruct x as [n|]; simpl; [apply number_toString_nonempty | discriminate].
Qed.

Lemma signature_empty_iff (c : KeyedCommand) :
  signature c = ""%string <-> keys c = [].
Proof.
  unfold signature, commandKeyCodes.
  destruct (keys c) as [|k ks]; simpl map.
  - split; reflexivity.
  - rewrite join_empty_cons. split; [|discriminate].
    intros E. exfalso.
    destruct (code_toString (charCodeAt0 (toUpperCase k))) eqn:Ek.
    + exact (code_toString_nonempty _ Ek).
    + discriminate.
Qed.

Lemma empty_history_matches_only_keyless_aux (command : KeyedCommand) :
  allKeysPressed [] command = true <-> keys command = [].
Proof.
  unfold allKeysPressed. fold (signature command).
  rewrite <- signature_empty_iff. simpl.
  destruct (signature command); simpl; split; intros H;
    try reflexivity; discriminate.
Qed.

(** X12.  A chorded command with no key matches every key history; one
    with at least one key never matches the empty history.  So right after
    the history has been cleared only key-less commands can still match. *)
Theorem empty_history_matches_only_keyless
        (command : KeyedCommand) :
  (keys command = [] -> forall recent, allKeysPressed recent command = true)
  /\ (allKeysPressed [] command = true <-> keys command = []).
Proof.
  unfold allKeysPressed. fold (signature command). split.
  - intros Hk recent. apply signature_empty_iff in Hk. rewrite Hk.
    apply includes_spec. exists ""%string. eexists. reflexivity.
  - unfold signature, commandKeyCodes.
    apply empty_history_matches_only_keyless_aux.
Qed.

Lemma history_string_app (a b : list nat) :
  join "" (map number_toString (a ++ b)) =
  (join "" (map number_toString a) ++ join "" (map number_toString b))%string.
Proof. now rewrite map_app, join_empty_app. Qed.

(** X13.  Keys that come before or after do not undo a match: if the
    history contains a command's signature, so does every history that
    extends it on either side.  In particular, pressing the keys whose
    codes are the command's key codes, in order, makes it match whatever
    was pressed before and is pressed after, until the history is
    cleared. *)
Theorem match_survives_surrounding_keys
        (command : KeyedCommand) (before after : list nat) :
  (forall recent,
     allKeysPressed recent command = true ->
     allKeysPressed (before ++ recent ++ after) command = true) /\
  (forall codes,
     commandKeyCodes command = map Some codes ->
     allKeysPressed (before ++ codes ++ after) command = true).
Proof.
  assert (forall recent,
            allKeysPressed recent command = true ->
            allKeysPressed (before ++ recent ++ after) command = true) as H.
  { unfold allKeysPressed. intros recent Hm.
    apply includes_spec in Hm. apply includes_spec.
    rewrite !history_string_app. apply substring_of_extend. exact Hm. }
  split; [exact H|].
  intros codes Hc. apply H. unfold allKeysPressed.
  rewrite Hc, map_map. simpl. apply includes_spec. apply substring_of_refl.
Qed.

(* ================================================================== *)
(** ** Further properties: what one keydown does *)
(* ================================================================== *)

Section OneKeydown.

Variable isMac : bool.
Variable commandsArr : list Command.
Variable enabled : bool.

Lemma loop_body_cases (event : KeyboardEvent) (st : State) (c : Command) :
  loop_body isMac commandsArr enabled event st c = st \/
  exists command,
    c = Keyed command /\
    eligible enabled event command = true /\
    matches isMac (recentKeyCodes st) event command = true /\
    loop_body isMac commandsArr enabled event st c =
    execute commandsArr command (preventDefault st).
Proof.
  unfold loop_body. destruct c as [b|command]; simpl; [left; reflexivity|].
  destruct (eligible enabled event command) eqn:E; [|left; reflexivity].
  destruct (matches isMac (recentKeyCodes st) event command) eqn:M;
    [|left; reflexivity].
  right. exists command. auto.
Qed.

(** X14.  When every chorded command of the registry has at least one
    key, one keydown runs at most one callback on the spot: the first
    command that matches without a dispute clears the history, and nothing
    matches the empty history. *)
Theorem keydown_runs_at_most_one_callback
        (event : KeyboardEvent) (st : State) :
  (forall command, In (Keyed command) commandsArr -> keys command <> []) ->
  calls (handler isMac commandsArr enabled event st) = calls st \/
  exists command,
    In (Keyed command) commandsArr /\
    calls (handler isMac commandsArr enabled event st) =
    calls st ++ [command].
Proof.
  intros Hkeys. unfold handler.
  set (s0 := reset_call _).
  assert (calls s0 = calls st) as C0 by reflexivity.
  assert (forall l s,
            incl l commandsArr ->
            (calls s = calls st \/
             exists command,
               In (Keyed command) commandsArr /\
               calls s = calls st ++ [command] /\ recentKeyCodes s = []) ->
            let s' := fold_left (loop_body isMac commandsArr enabled event)
                                l s in
            calls s' = calls st \/
            exists command,
              In (Keyed command) commandsArr /\
              calls s' = calls st ++ [command] /\ recentKeyCodes s' = [])
    as Hloop.
  { induction l as [|c l IH]; intros s Hl HJ; simpl; [exact HJ|].
    apply IH; [intros x Hx; apply Hl; right; exact Hx|].
    assert (In c commandsArr) as Hc by (apply Hl; left; reflexivity).
    destruct (loop_body_cases event s c)
      as [-> | [command [-> [_ [Hm ->]]]]]; [exact HJ|].
    unfold matches in Hm. rewrite !andb_true_iff in Hm.
    destruct Hm as [[[Hm _] _] _].
    destruct HJ as [HJ | [c1 [Hc1 [HJ Hr]]]].
    - unfold execute. destruct (hasDisputing command commandsArr); simpl.
      + left. exact HJ.
      + right. exists command. rewrite HJ. auto.
    - exfalso. rewrite Hr in Hm.
      apply (Hkeys command Hc).
      apply (proj1 (empty_history_matches_only_keyless_aux command)).
      exact Hm. }
  destruct (Hloop commandsArr s0 (incl_refl _) (or_introl C0))
    as [H | [command [Hin [H _]]]]; [left; exact H|].
  right. exists command. auto.
Qed.

(** X15.  While the global-enabled flag is false, or when the keydown
    comes from an input, textarea or select element, a registry without
    any [forceEnable] command does nothing but remember the key and re-arm
    the inactivity timer: no callback, no candidate, no
    [preventDefault]. *)
Theorem keydown_is_only_recorded_when_gated
        (event : KeyboardEvent) (st : State) :
  (forall command,
     In (Keyed command) commandsArr -> truthy (forceEnable command) = false) ->
  enabled = false \/ isInputEvent event = true ->
  handler isMac commandsArr enabled event st =
  reset_call (set_recentKeyCodes (recentKeyCodes st ++ [keyCode event]) st).
Proof.
  intros Hforce Hgate. unfold handler.
  set (s0 := reset_call _).
  assert (forall l s, incl l commandsArr ->
            fold_left (loop_body isMac commandsArr enabled event) l s = s)
    as Hloop.
  { induction l as [|c l IH]; intros s Hl; simpl; [reflexivity|].
    assert (In c commandsArr) as Hc by (apply Hl; left; reflexivity).
    destruct (loop_body_cases event s c)
      as [-> | [command [-> [He _]]]].
    - apply IH. intros x Hx. apply Hl. right. exact Hx.
    - exfalso. apply eligible_iff in He. rewrite (Hforce command Hc) in He.
      destruct He as [He | [_ [He1 He2]]]; [discriminate|].
      destruct Hgate; congruence. }
  apply Hloop. apply incl_refl.
Qed.

End OneKeydown.

(* ================================================================== *)
(** ** Further properties: candidates and ties *)
(* ================================================================== *)

Section Candidates.

Variable isMac : bool.
Variable commandsArr : list Command.
Variable enabled : bool.

Local Abbreviation disputing_member := (disputing_in commandsArr).

Lemma candidates_loop (event : KeyboardEvent) (l : list Command)
      (st : State) :
  incl l commandsArr ->
  Forall disputing_member (validCommands st) ->
  Forall disputing_member
         (validCommands
            (fold_left (loop_body isMac commandsArr enabled event) l st)).
Proof.
  revert st. induction l as [|c l IH]; intros st Hl H; simpl; [exact H|].
  apply IH; [intros x Hx; apply Hl; right; exact Hx|].
  assert (In c commandsArr) as Hc by (apply Hl; left; reflexivity).
  destruct (loop_body_cases isMac commandsArr enabled event st c)
    as [-> | [command [-> [_ [_ ->]]]]]; [exact H|].
  unfold execute.
  destruct (hasDisputing command commandsArr) eqn:E; simpl.
  - apply Forall_app. split; [exact H|].
    constructor; [split; assumption | constructor].
  - constructor.
Qed.

Lemma candidates_fire_next (t : nat) (st st' : State) :
  fire_next t st = Some st' -> validCommands st' = [].
Proof.
  unfold fire_next.
  destruct (rankTimer st) as [r|], (resetTimer st) as [s|];
    repeat match goal with
           | |- context [if ?b then _ else _] => destruct b
           end;
    intros H; inversion H; subst;
    first [ apply (fire_rank_shape st) | reflexivity ].
Qed.

(** X16.  Whatever keys are pressed and however time passes, every
    pending candidate is a chorded command of the closure's snapshot that
    disputes with another command of that snapshot. *)
Theorem candidates_are_disputing_commands (actions : list Action) :
  Forall (fun c => In (Keyed c) commandsArr /\
                   hasDisputing c commandsArr = true)
         (validCommands (run isMac commandsArr enabled actions init)).
Proof.
  assert (forall st, Forall disputing_member (validCommands st) ->
            Forall disputing_member
              (validCommands (run isMac commandsArr enabled actions st)))
    as H.
  { induction actions as [|a actions IH]; intros st Hst; simpl; [exact Hst|].
    apply IH. destruct a as [event|dt]; simpl.
    - unfold handler. apply candidates_loop; [apply incl_refl | exact Hst].
    - unfold elapse.
      destruct (fire_next (now st + dt) st) as [s1|] eqn:E1; [|exact Hst].
      destruct (fire_next (now st + dt) s1) as [s2|] eqn:E2; simpl.
      + rewrite (candidates_fire_next _ _ _ E2). constructor.
      + rewrite (candidates_fire_next _ _ _ E1). constructor. }
  apply (H init). constructor.
Qed.

End Candidates.

Lemma includes_refl (s : string) : includes s s = true.
Proof. apply includes_spec. apply substring_of_refl. Qed.

(** X17.  Two distinct chorded commands with the same key labels and the
    same number of modifiers dispute with each other.  When they are the
    chorded commands of the registry, both are eligible and both match a
    keydown that finds no candidate pending, the one registered first is
    the one whose callback runs once 200 ms have passed, and it runs
    alone. *)
Theorem earlier_registration_wins_a_tie
        (isMac : bool) (commandsArr : list Command) (enabled : bool)
        (A B : KeyedCommand) (event : KeyboardEvent) (st : State)
        (dt : nat) :
  keyed_only commandsArr = [A; B] ->
  oid A <> oid B ->
  keys A = keys B ->
  modifiers A = modifiers B ->
  validCommands st = [] ->
  eligible enabled event A = true ->
  eligible enabled event B = true ->
  matches isMac (recentKeyCodes st ++ [keyCode event]) event A = true ->
  matches isMac (recentKeyCodes st ++ [keyCode event]) event B = true ->
  200 <= dt ->
  hasDisputing A commandsArr = true /\
  hasDisputing B commandsArr = true /\
  calls (elapse dt (handler isMac commandsArr enabled event st)) =
  calls st ++ [A].
Proof.
  intros Hreg Hne Hk Hm Hv HeA HeB HmA HmB Hdt.
  assert ((oid A =? oid B) = false) as EAB by (apply Nat.eqb_neq; exact Hne).
  assert ((oid B =? oid A) = false) as EBA
      by (apply Nat.eqb_neq; intros E; apply Hne; now symmetry).
  assert (getCommandRank B = getCommandRank A) as Hrank
      by (unfold getCommandRank; now rewrite Hk, Hm).
  assert (hasDisputing A commandsArr = true) as HdA.
  { rewrite hasDisputing_keyed_only, Hreg. unfold hasDisputing. simpl.
    rewrite Nat.eqb_refl, EAB, Hk, includes_refl, Hrank, Nat.leb_refl.
    reflexivity. }
  assert (hasDisputing B commandsArr = true) as HdB.
  { rewrite hasDisputing_keyed_only, Hreg. unfold hasDisputing. simpl.
    rewrite Nat.eqb_refl, EBA, Hk, includes_refl, Hrank, Nat.leb_refl.
    reflexivity. }
  split; [exact HdA|]. split; [exact HdB|].
  unfold handler. rewrite loop_keyed_only, Hreg. cbn [map fold_left].
  set (s0 := reset_call _).
  assert (recentKeyCodes s0 = recentKeyCodes st ++ [keyCode event]) as R0
      by reflexivity.
  assert (loop_body isMac commandsArr enabled event s0 (Keyed A) =
          rankAndExecute_call
            (set_validCommands (validCommands s0 ++ [A])
                               (preventDefault s0))) as ->.
  { unfold loop_body. simpl isKeyedCommand. cbv iota.
    rewrite HeA, R0, HmA. unfold execute. now rewrite HdA. }
  set (s1 := rankAndExecute_call _).
  assert (loop_body isMac commandsArr enabled event s1 (Keyed B) =
          rankAndExecute_call
            (set_validCommands (validCommands s1 ++ [B])
                               (preventDefault s1))) as ->.
  { unfold loop_body. simpl isKeyedCommand. cbv iota.
    rewrite HeB. change (recentKeyCodes s1) with (recentKeyCodes s0).
    rewrite R0, HmB. unfold execute. now rewrite HdB. }
  unfold elapse, fire_next. simpl. rewrite Hv. simpl.
  replace (now st + 200 <=? now st + 2000) with true
    by (symmetry; apply Nat.leb_le; lia).
  replace (now st + 200 <=? now st + dt) with true
    by (symmetry; apply Nat.leb_le; lia).
  unfold fire_rank, rankAndExecute_action. simpl validCommands.
  rewrite getHighestPriorityCommand_many. unfold maximal. simpl.
  rewrite Hrank, !Nat.leb_refl. simpl.
  rewrite Hm, !Nat.leb_refl. simpl. reflexivity.
Qed.

Lemma earlier_registration_wins_a_tie_witness :
  calls (elapse 200 (handler false [Keyed just_k; Keyed other_k] true
                             (press 75) init)) = calls init ++ [just_k].
Proof.
  apply (earlier_registration_wins_a_tie
           false [Keyed just_k; Keyed other_k] true just_k other_k
           (press 75) init 200);
    try reflexivity; try discriminate; try lia.
Defined.

(* ================================================================== *)
(** ** Further properties: the stores and the handler together *)
(* ================================================================== *)

Lemma eligible_passed_guard (enabled : bool) (event : KeyboardEvent)
      (c : KeyedCommand) :
  eligible enabled event c = true -> passed_guard enabled c.
Proof. intros H. apply eligible_iff in H. unfold passed_guard. tauto. Qed.

Lemma guarded_world_step (isMac : bool) (w : World) (e : Event) :
  Invoked_only (passed_guard (h_enabled (keyDownHandler w)))
               (h_state (keyDownHandler w)) ->
  Invoked_only
    (passed_guard (h_enabled (keyDownHandler (world_step isMac w e))))
    (h_state (keyDownHandler (world_step isMac w e))).
Proof.
  intros H. destruct e as [[u l|u|u b|u]|actions]; simpl;
    unfold update_commandMap, update_disabledMap;
    try match goal with
        | |- context [if ?b then _ else _] => destruct b
        end;
    simpl; try exact H; try (split; constructor).
  apply Inv_run; [|exact H].
  intros event c _ Hel. exact (eligible_passed_guard _ _ _ Hel).
Qed.

Lemma guarded_world_run (isMac : bool) (es : list Event) (w : World) :
  Invoked_only (passed_guard (h_enabled (keyDownHandler w)))
               (h_state (keyDownHandler w)) ->
  Invoked_only
    (passed_guard (h_enabled (keyDownHandler (world_run isMac es w))))
    (h_state (keyDownHandler (world_run isMac es w))).
Proof.
  revert w. induction es as [|e es IH]; intros w H; simpl; [exact H|].
  apply IH. apply guarded_world_step. exact H.
Qed.

(** X18.  Starting from the empty stores, after any registrations,
    releases, availability updates and keystrokes: while some registrant
    holds the command center disabled, every callback the handler in
    place has run, and every candidate it holds, belongs to a command with
    [forceEnable]. *)
Theorem disabled_center_runs_only_forced_commands
        (isMac : bool) (es : list Event) :
  let w := world_run isMac es world0 in
  commandsEnabled (disabledMap w) = false ->
  Forall (fun c : KeyedCommand => truthy (forceEnable c) = true)
         (calls (h_state (keyDownHandler w))) /\
  Forall (fun c : KeyedCommand => truthy (forceEnable c) = true)
         (validCommands (h_state (keyDownHandler w))).
Proof.
  intros w Hoff.
  pose proof (guarded_world_run isMac es world0
                (conj (Forall_nil _) (Forall_nil _))) as H.
  fold w in H.
  assert (h_enabled (keyDownHandler w) = false) as Hen.
  { destruct (in_sync_run isMac es world0 (conj eq_refl eq_refl)) as [_ E].
    fold w in E. congruence. }
  rewrite Hen in H. destruct H as [Hv Hc].
  assert (forall c, passed_guard false c -> truthy (forceEnable c) = true)
    as Hforce.
  { intros c [Hf | [_ Hf]]; [exact Hf | discriminate]. }
  split; eapply Forall_impl; try exact Hforce; assumption.
Qed.

Lemma disabled_center_runs_only_forced_commands_witness :
  Forall (fun c : KeyedCommand => truthy (forceEnable c) = true)
         (calls (h_state (keyDownHandler
            (world_run false
               [Store (RegisterSet "a" [Keyed just_k; Keyed forced_k]);
                Store (DisableSet "m" true);
                Keyboard [KeyDown (press 75); Elapse 200]] world0)))).
Proof.
  apply (disabled_center_runs_only_forced_commands
           false
           [Store (RegisterSet "a" [Keyed just_k; Keyed forced_k]);
            Store (DisableSet "m" true);
            Keyboard [KeyDown (press 75); Elapse 200]]).
  reflexivity.
Defined.

Section NoDispute.

Variable isMac : bool.
Variable commandsArr : list Command.
Variable enabled : bool.

Hypothesis no_dispute :
  forall command,
    In (Keyed command) commandsArr -> hasDisputing command commandsArr = false.

Lemma quiet_loop (event : KeyboardEvent) (l : list Command) (st : State) :
  incl l commandsArr ->
  quiet st ->
  quiet (fold_left (loop_body isMac commandsArr enabled event) l st).
Proof.
  revert st. induction l as [|c l IH]; intros st Hl H; simpl; [exact H|].
  apply IH; [intros x Hx; apply Hl; right; exact Hx|].
  assert (In c commandsArr) as Hc by (apply Hl; left; reflexivity).
  destruct (loop_body_cases isMac commandsArr enabled event st c)
    as [-> | [command [-> [_ [_ ->]]]]]; [exact H|].
  unfold execute. rewrite (no_dispute command Hc).
  destruct H as [Hr [Hu Hv]]. repeat split; simpl; assumption.
Qed.

Lemma quiet_fire_next (t : nat) (st st' : State) :
  quiet st -> fire_next t st = Some st' -> quiet st'.
Proof.
  intros [Hr [Hu Hv]]. unfold fire_next. rewrite Hr.
  destruct (resetTimer st) as [s|]; [|discriminate].
  destruct (s <=? t); [|discriminate].
  intros H. inversion H; subst. unfold fire_reset.
  repeat split; simpl; assumption.
Qed.

(** X19.  When no chorded command of the registry disputes with another,
    the closure never holds a candidate, never arms the resolution timer
    and never lets an exception escape, whatever is typed and however time
    passes. *)
Theorem registry_without_disputes_never_throws (actions : list Action) :
  let st := run isMac commandsArr enabled actions init in
  uncaught st = [] /\ rankTimer st = None /\ validCommands st = [].
Proof.
  assert (forall st, quiet st ->
            quiet (run isMac commandsArr enabled actions st)) as H.
  { induction actions as [|a actions IH]; intros st Hst; simpl; [exact Hst|].
    apply IH. destruct a as [event|dt]; simpl.
    - unfold handler. apply quiet_loop; [apply incl_refl|].
      destruct Hst as [Hr [Hu Hv]]. repeat split; simpl; assumption.
    - unfold elapse.
      destruct (fire_next (now st + dt) st) as [s1|] eqn:E1.
      + pose proof (quiet_fire_next _ _ _ Hst E1) as H1.
        destruct (fire_next (now st + dt) s1) as [s2|] eqn:E2.
        * destruct (quiet_fire_next _ _ _ H1 E2) as [Hr [Hu Hv]].
          repeat split; simpl; assumption.
        * destruct H1 as [Hr [Hu Hv]]. repeat split; simpl; assumption.
      + destruct Hst as [Hr [Hu Hv]]. repeat split; simpl; assumption. }
  destruct (H init) as [Hr [Hu Hv]]; [repeat split; reflexivity|].
  auto.
Qed.

End NoDispute.

Lemma registry_without_disputes_never_throws_witness :
  uncaught (run false [Keyed goto_d; Keyed just_l] true
                [KeyDown (press 71); Elapse 100; KeyDown (press 68);
                 Elapse 300] init) = [].
Proof.
  apply (registry_without_disputes_never_throws
           false [Keyed goto_d; Keyed just_l] true).
  intros command [H | [H | []]]; injection H as <-; reflexivity.
Defined.

Lemma keydown_runs_at_most_one_callback_witness :
  calls (handler false [Keyed just_k; Keyed ctrl_k] true
                 (mkEvent 75 false true false false "BODY") init) =
  calls init \/
  exists command,
    In (Keyed command) [Keyed just_k; Keyed ctrl_k] /\
    calls (handler false [Keyed just_k; Keyed ctrl_k] true
                   (mkEvent 75 false true false false "BODY") init) =
    calls init ++ [command].
Proof.
  apply (keydown_runs_at_most_one_callback
           false [Keyed just_k; Keyed ctrl_k] true).
  intros command [H | [H | []]]; injection H as <-; discriminate.
Defined.

Lemma keydown_is_only_recorded_when_gated_witness :
  handler false [Keyed just_k; Keyed ctrl_k] true
          (mkEvent 75 false false false false "INPUT") init =
  reset_call (set_recentKeyCodes (recentKeyCodes init ++ [75]) init).
Proof.
  apply (keydown_is_only_recorded_when_gated
           false [Keyed just_k; Keyed ctrl_k] true
           (mkEvent 75 false false false false "INPUT") init).
  - intros command [H | [H | []]]; injection H as <-; reflexivity.
  - right. reflexivity.
Defined.
